(** * The ZMQ communication driver of MARO

    A shallow embedding of [maro/communication/driver/zmq_driver.py]
    (class [ZmqDriver]) and the properties of its [connect], [receive],
    [send] and [broadcast] methods.

    The driver is a thin layer over the [zmq] library.  The methods are
    translated statement by statement into a state-and-exception monad; the
    library and the network are a [World] the monad threads along: what
    arrives on the two inbound sockets and when, which addresses the
    transport rejects, which writes and polls fail.  The logger appends to
    a log and does not fail; creating a socket and setting its options do
    not fail; what arrives on a socket is a [Message], and a read of a
    socket returns it or waits for it (a read that failed would leave
    [receive] as the transport's own error: the reads are outside its
    [try]).  The builtin [int] is not modelled: a text key of an address
    dict is given with the value [int] has for it.

    The file also embeds [load_adj_from_csv] of
    [maro/simulator/scenarios/citi_bike/adj_loader.py], over the rows the
    csv reader gives.  *)

From Stdlib Require Import List String Ascii ZArith Lia Bool Arith.
From Stdlib Require Import DecimalString.
Import ListNotations.

Open Scope string_scope.
Open Scope Z_scope.

(** ** Python values *)

(** A key of a peer's address dict ([socket_type] in [connect]).  The keys
    are [zmq] socket-type constants, as [int] or, after the address dict
    went through a text format, as [str].  The code does two things with a
    key: it applies [int] to it, and it prints it in the message of an
    error.  [int] is a builtin of the language: what it accepts in a [str]
    (white space, a sign, underscores, the decimal digits of any script) is
    not decided by this program.  So a [str] key is given with the value
    [int] has for it: [KStr s v] is the [str] [s], for which [int] gives [v],
    [None] when [int] raises ValueError. *)
Inductive PyKey : Type :=
| KInt (z : Z)
| KStr (s : string) (v : option Z).

(** [int(socket_type)]; [None] stands for ValueError. *)
Definition py_int (k : PyKey) : option Z :=
  match k with
  | KInt z => Some z
  | KStr _ v => v
  end.

(** [maro.communication.Message], as far as the driver reads it. *)
Record Message : Type := {
  source : string;
  destination : string;
  tag : string;
  payload : string
}.

(** Exceptions ([gaierror] is [socket.gaierror], of a host name that does
    not resolve).  The driver's own exception classes carry a message built
    from an f-string; the constructors keep the values the f-string is built
    from ([PeersConnectionError p e] is
    [PeersConnectionError(f"Driver cannot connect to {p}! Due to {str(e)}")]). *)
Inductive exn : Type :=
| ValueError (k : PyKey)
| KeyError (key : string)
| ZMQError (text : string)
| gaierror
| SocketTypeError (k : PyKey)
| PeersConnectionError (peer_name : string) (e : exn)
| DriverReceiveError (e : exn)
| DriverSendError (e : exn).

(** ** Python dicts

    A dict is a list of key-value pairs in insertion order.  Assignment to a
    key that is present replaces the value in place; assignment to a new key
    appends. *)
Section Dict.
Context {V : Type}.

Fixpoint dict_get (k : string) (d : list (string * V)) : option V :=
  match d with
  | [] => None
  | (k', v) :: r => if String.eqb k k' then Some v else dict_get k r
  end.

Fixpoint dict_set (k : string) (v : V) (d : list (string * V))
  : list (string * V) :=
  match d with
  | [] => [(k, v)]
  | (k', v') :: r =>
      if String.eqb k k' then (k, v) :: r else (k', v') :: dict_set k v r
  end.

Definition dict_keys (d : list (string * V)) : list string := map fst d.
End Dict.

(** ** The zmq library and the network *)

Module zmq.
Definition PUB : Z := 1.
Definition SUB : Z := 2.
Definition PULL : Z := 7.
Definition PUSH : Z := 8.
End zmq.

(** A socket object: its identity, its kind, its [SNDTIMEO] option (-1, no
    timeout, when the socket is created), the prefixes it subscribed to, the
    addresses it is bound and connected to, and the messages written to it. *)
Record Socket : Type := {
  sock_id : nat;
  sock_kind : Z;
  sndtimeo : Z;
  subscribed : list string;
  bound : list string;
  connected : list string;
  sent : list Message
}.

(** The environment of a driver.  Time is in milliseconds.  An inbox lists
    the messages that reach an inbound socket, in order, each with its time
    of arrival.  A script gives the outcome of the next calls of a fallible
    library function ([Some text]: the call raises [ZMQError]); a call past
    the end of the script succeeds.  [refused] maps the addresses the
    transport does not accept in [connect] to the error it gives, and
    [unbindable] those it cannot bind.  [host_ip] is the address the host's
    name resolves to, if it does. *)
Record World : Type := {
  now : Z;
  unicast_inbox : list (Z * Message);
  broadcast_inbox : list (Z * Message);
  poll_script : list (option string);
  write_script : list (option string);
  refused : list (string * string);
  unbindable : list (string * string);
  free_ports : list Z;
  host_ip : option string;
  sockets_made : nat;
  log : list string
}.

Record ZmqDriver : Type := {
  _protocol : string;
  _send_timeout : Z;
  _receive_timeout : Z;
  _ip_address : string;
  _unicast_sender_dict : list (string * Socket);
  _broadcast_sender : Socket;
  _unicast_receiver : Socket;
  _broadcast_receiver : Socket;
  _address : list (Z * string);
  _poller : list Socket
}.

Definition Config : Type := ZmqDriver * World.

(** ** The monad: state, exceptions and calls that never return *)

Inductive Outcome (A : Type) : Type :=
| Ret (a : A)
| Exc (e : exn)
| Hang.
Arguments Ret {A} a.
Arguments Exc {A} e.
Arguments Hang {A}.

Definition M (A : Type) : Type := Config -> Outcome A * Config.

Definition ret {A} (a : A) : M A := fun c => (Ret a, c).
Definition raise {A} (e : exn) : M A := fun c => (Exc e, c).
Definition hang {A} : M A := fun c => (Hang, c).

Definition bind {A B} (m : M A) (k : A -> M B) : M B :=
  fun c =>
    match m c with
    | (Ret a, c') => k a c'
    | (Exc e, c') => (Exc e, c')
    | (Hang, c') => (Hang, c')
    end.

(** [try: body except Exception as e: handler e] *)
Definition try_except {A} (body : M A) (handler : exn -> M A) : M A :=
  fun c =>
    match body c with
    | (Exc e, c') => handler e c'
    | r => r
    end.

Declare Scope py_scope.
Delimit Scope py_scope with py.
Notation "x <- m ;; k" := (bind m (fun x => k))
  (at level 61, m at next level, right associativity) : py_scope.
Notation "m ;; k" := (bind m (fun _ => k))
  (at level 61, right associativity) : py_scope.
Open Scope py_scope.

Definition get_self : M ZmqDriver := fun c => (Ret (fst c), c).
Definition set_self (d : ZmqDriver) : M unit := fun c => (Ret tt, (d, snd c)).
Definition get_world : M World := fun c => (Ret (snd c), c).
Definition set_world (w : World) : M unit := fun c => (Ret tt, (fst c, w)).

(** [for x in l: body x] *)
Fixpoint for_each {X} (l : list X) (body : X -> M unit) : M unit :=
  match l with
  | [] => ret tt
  | x :: r => body x ;; for_each r body
  end.

(** ** Record updates *)

Definition with_sndtimeo (t : Z) (s : Socket) : Socket :=
  {| sock_id := sock_id s; sock_kind := sock_kind s; sndtimeo := t;
     subscribed := subscribed s; bound := bound s;
     connected := connected s; sent := sent s |}.

Definition with_subscribed (l : list string) (s : Socket) : Socket :=
  {| sock_id := sock_id s; sock_kind := sock_kind s; sndtimeo := sndtimeo s;
     subscribed := l; bound := bound s;
     connected := connected s; sent := sent s |}.

Definition with_bound (l : list string) (s : Socket) : Socket :=
  {| sock_id := sock_id s; sock_kind := sock_kind s; sndtimeo := sndtimeo s;
     subscribed := subscribed s; bound := l;
     connected := connected s; sent := sent s |}.

Definition with_connected (l : list string) (s : Socket) : Socket :=
  {| sock_id := sock_id s; sock_kind := sock_kind s; sndtimeo := sndtimeo s;
     subscribed := subscribed s; bound := bound s;
     connected := l; sent := sent s |}.

Definition with_sent (l : list Message) (s : Socket) : Socket :=
  {| sock_id := sock_id s; sock_kind := sock_kind s; sndtimeo := sndtimeo s;
     subscribed := subscribed s; bound := bound s;
     connected := connected s; sent := l |}.

Definition with_now (t : Z) (w : World) : World :=
  {| now := t; unicast_inbox := unicast_inbox w;
     broadcast_inbox := broadcast_inbox w; poll_script := poll_script w;
     write_script := write_script w; refused := refused w;
     unbindable := unbindable w;
     free_ports := free_ports w; host_ip := host_ip w;
     sockets_made := sockets_made w; log := log w |}.

Definition with_unicast_inbox (q : list (Z * Message)) (w : World) : World :=
  {| now := now w; unicast_inbox := q;
     broadcast_inbox := broadcast_inbox w; poll_script := poll_script w;
     write_script := write_script w; refused := refused w;
     unbindable := unbindable w;
     free_ports := free_ports w; host_ip := host_ip w;
     sockets_made := sockets_made w; log := log w |}.

Definition with_broadcast_inbox (q : list (Z * Message)) (w : World) : World :=
  {| now := now w; unicast_inbox := unicast_inbox w;
     broadcast_inbox := q; poll_script := poll_script w;
     write_script := write_script w; refused := refused w;
     unbindable := unbindable w;
     free_ports := free_ports w; host_ip := host_ip w;
     sockets_made := sockets_made w; log := log w |}.

Definition with_poll_script (l : list (option string)) (w : World) : World :=
  {| now := now w; unicast_inbox := unicast_inbox w;
     broadcast_inbox := broadcast_inbox w; poll_script := l;
     write_script := write_script w; refused := refused w;
     unbindable := unbindable w;
     free_ports := free_ports w; host_ip := host_ip w;
     sockets_made := sockets_made w; log := log w |}.

Definition with_write_script (l : list (option string)) (w : World) : World :=
  {| now := now w; unicast_inbox := unicast_inbox w;
     broadcast_inbox := broadcast_inbox w; poll_script := poll_script w;
     write_script := l; refused := refused w;
     unbindable := unbindable w;
     free_ports := free_ports w; host_ip := host_ip w;
     sockets_made := sockets_made w; log := log w |}.

Definition with_free_ports (l : list Z) (w : World) : World :=
  {| now := now w; unicast_inbox := unicast_inbox w;
     broadcast_inbox := broadcast_inbox w; poll_script := poll_script w;
     write_script := write_script w; refused := refused w;
     unbindable := unbindable w;
     free_ports := l; host_ip := host_ip w;
     sockets_made := sockets_made w; log := log w |}.

Definition with_sockets_made (n : nat) (w : World) : World :=
  {| now := now w; unicast_inbox := unicast_inbox w;
     broadcast_inbox := broadcast_inbox w; poll_script := poll_script w;
     write_script := write_script w; refused := refused w;
     unbindable := unbindable w;
     free_ports := free_ports w; host_ip := host_ip w;
     sockets_made := n; log := log w |}.

Definition with_log (l : list string) (w : World) : World :=
  {| now := now w; unicast_inbox := unicast_inbox w;
     broadcast_inbox := broadcast_inbox w; poll_script := poll_script w;
     write_script := write_script w; refused := refused w;
     unbindable := unbindable w;
     free_ports := free_ports w; host_ip := host_ip w;
     sockets_made := sockets_made w; log := l |}.

Definition with_unicast_sender_dict (t : list (string * Socket))
  (d : ZmqDriver) : ZmqDriver :=
  {| _protocol := _protocol d; _send_timeout := _send_timeout d;
     _receive_timeout := _receive_timeout d; _ip_address := _ip_address d;
     _unicast_sender_dict := t; _broadcast_sender := _broadcast_sender d;
     _unicast_receiver := _unicast_receiver d;
     _broadcast_receiver := _broadcast_receiver d;
     _address := _address d; _poller := _poller d |}.

Definition with_broadcast_sender (s : Socket) (d : ZmqDriver) : ZmqDriver :=
  {| _protocol := _protocol d; _send_timeout := _send_timeout d;
     _receive_timeout := _receive_timeout d; _ip_address := _ip_address d;
     _unicast_sender_dict := _unicast_sender_dict d; _broadcast_sender := s;
     _unicast_receiver := _unicast_receiver d;
     _broadcast_receiver := _broadcast_receiver d;
     _address := _address d; _poller := _poller d |}.

Definition with_unicast_receiver (s : Socket) (d : ZmqDriver) : ZmqDriver :=
  {| _protocol := _protocol d; _send_timeout := _send_timeout d;
     _receive_timeout := _receive_timeout d; _ip_address := _ip_address d;
     _unicast_sender_dict := _unicast_sender_dict d;
     _broadcast_sender := _broadcast_sender d;
     _unicast_receiver := s;
     _broadcast_receiver := _broadcast_receiver d;
     _address := _address d; _poller := _poller d |}.

Definition with_broadcast_receiver (s : Socket) (d : ZmqDriver) : ZmqDriver :=
  {| _protocol := _protocol d; _send_timeout := _send_timeout d;
     _receive_timeout := _receive_timeout d; _ip_address := _ip_address d;
     _unicast_sender_dict := _unicast_sender_dict d;
     _broadcast_sender := _broadcast_sender d;
     _unicast_receiver := _unicast_receiver d;
     _broadcast_receiver := s;
     _address := _address d; _poller := _poller d |}.

Definition with_address (a : list (Z * string)) (d : ZmqDriver) : ZmqDriver :=
  {| _protocol := _protocol d; _send_timeout := _send_timeout d;
     _receive_timeout := _receive_timeout d; _ip_address := _ip_address d;
     _unicast_sender_dict := _unicast_sender_dict d;
     _broadcast_sender := _broadcast_sender d;
     _unicast_receiver := _unicast_receiver d;
     _broadcast_receiver := _broadcast_receiver d;
     _address := a; _poller := _poller d |}.

Definition with_poller (p : list Socket) (d : ZmqDriver) : ZmqDriver :=
  {| _protocol := _protocol d; _send_timeout := _send_timeout d;
     _receive_timeout := _receive_timeout d; _ip_address := _ip_address d;
     _unicast_sender_dict := _unicast_sender_dict d;
     _broadcast_sender := _broadcast_sender d;
     _unicast_receiver := _unicast_receiver d;
     _broadcast_receiver := _broadcast_receiver d;
     _address := _address d; _poller := p |}.

Definition modify_self (f : ZmqDriver -> ZmqDriver) : M unit :=
  fun c => (Ret tt, (f (fst c), snd c)).

Definition modify_world (f : World -> World) : M unit :=
  fun c => (Ret tt, (fst c, f (snd c))).

(** ** The library calls the driver makes *)

Definition show_int (z : Z) : string := NilZero.string_of_int (Z.to_int z).

(** [logger.debug(text)] *)
Definition debug (text : string) : M unit :=
  modify_world (fun w => with_log (log w ++ [text]) w).

(** [int(socket_type)] *)
Definition int_ (k : PyKey) : M Z :=
  match py_int k with
  | Some z => ret z
  | None => raise (ValueError k)
  end.

(** [context.socket(kind)] *)
Definition zmq_socket (kind : Z) : M Socket :=
  w <- get_world ;;
  set_world (with_sockets_made (S (sockets_made w)) w) ;;
  ret {| sock_id := sockets_made w; sock_kind := kind; sndtimeo := -1;
         subscribed := []; bound := []; connected := []; sent := [] |}.

(** A method of a socket returns its result and the socket as it is after
    the call. *)
Definition setsockopt_sndtimeo (t : Z) (s : Socket) : M (unit * Socket) :=
  ret (tt, with_sndtimeo t s).

Definition setsockopt_subscribe (p : string) (s : Socket) : M (unit * Socket) :=
  ret (tt, with_subscribed (subscribed s ++ [p]) s).

(** [socket.bind_to_random_port(addr)]: the transport cannot bind some
    addresses at all (an unknown protocol), and gives up when no port is
    free. *)
Definition bind_to_random_port (addr : string) (s : Socket) : M (Z * Socket) :=
  w <- get_world ;;
  match dict_get addr (unbindable w) with
  | Some text => raise (ZMQError text)
  | None =>
      match free_ports w with
      | [] => raise (ZMQError "Could not bind socket to random port.")
      | port :: r =>
          set_world (with_free_ports r w) ;;
          ret (port, with_bound (bound s ++ [addr ++ ":" ++ show_int port]) s)
      end
  end.

(** [socket.connect(address)]: the transport refuses some addresses. *)
Definition sock_connect (address : string) (s : Socket) : M (unit * Socket) :=
  w <- get_world ;;
  match dict_get address (refused w) with
  | Some text => raise (ZMQError text)
  | None => ret (tt, with_connected (connected s ++ [address]) s)
  end.

(** [socket.send_pyobj(message)]: the write is accepted, or fails (also by
    timing out) as the world's script says. *)
Definition send_pyobj (message : Message) (s : Socket) : M (unit * Socket) :=
  w <- get_world ;;
  set_world (with_write_script (tl (write_script w)) w) ;;
  match write_script w with
  | Some text :: _ => raise (ZMQError text)
  | _ => ret (tt, with_sent (sent s ++ [message]) s)
  end.

(** What reaches a socket: a bound PULL socket gets the unicast traffic, a
    bound SUB socket subscribed to the empty prefix the broadcast traffic. *)
Definition inbox (s : Socket) (w : World) : list (Z * Message) :=
  match bound s with
  | [] => []
  | _ :: _ =>
      if sock_kind s =? zmq.PULL then unicast_inbox w
      else if (sock_kind s =? zmq.SUB) && existsb (String.eqb "") (subscribed s)
           then broadcast_inbox w
           else []
  end.

Definition with_inbox (s : Socket) (q : list (Z * Message)) (w : World)
  : World :=
  if sock_kind s =? zmq.PULL then with_unicast_inbox q w
  else if sock_kind s =? zmq.SUB then with_broadcast_inbox q w
  else w.

(** Has the first message of an inbox arrived at time [t]? *)
Definition arrived (t : Z) (q : list (Z * Message)) : bool :=
  match q with
  | [] => false
  | (a, _) :: _ => a <=? t
  end.

Definition ready_at (t : Z) (registered : list Socket) (w : World)
  : list Socket :=
  filter (fun s => arrived t (inbox s w)) registered.

Definition earliest (a b : option Z) : option Z :=
  match a, b with
  | Some x, Some y => Some (Z.min x y)
  | Some x, None => Some x
  | None, _ => b
  end.

Definition next_arrival (registered : list Socket) (w : World) : option Z :=
  fold_right
    (fun s acc =>
       earliest (match inbox s w with [] => None | (a, _) :: _ => Some a end)
                acc)
    None registered.

(** [poller.poll(timeout)] followed by [dict]: the registered sockets that
    have a message, at once when there is one, else as soon as one arrives,
    else none once [timeout] milliseconds have passed (a negative [timeout]
    waits without limit). *)
Definition poll (timeout : Z) (registered : list Socket) : M (list Socket) :=
  w <- get_world ;;
  set_world (with_poll_script (tl (poll_script w)) w) ;;
  match poll_script w with
  | Some text :: _ => raise (ZMQError text)
  | _ =>
      match ready_at (now w) registered w with
      | (_ :: _) as ready => ret ready
      | [] =>
          match next_arrival registered w with
          | Some t =>
              if (timeout <? 0) || (t <=? now w + timeout)
              then modify_world (with_now t) ;; ret (ready_at t registered w)
              else modify_world (with_now (now w + timeout)) ;; ret []
          | None =>
              if timeout <? 0 then hang
              else modify_world (with_now (now w + timeout)) ;; ret []
          end
      end
  end.

(** [socket.recv_pyobj()]: a blocking read (the driver sets no receive
    timeout on its sockets), which takes the first message of the inbox,
    waiting for it to arrive, and never returns when none ever arrives. *)
Definition recv_pyobj (s : Socket) : M Message :=
  w <- get_world ;;
  match inbox s w with
  | [] => hang
  | (t, m) :: q =>
      set_world (with_inbox s q (with_now (Z.max (now w) t) w)) ;;
      ret m
  end.

(** [x in sockets], for socket objects: the same object. *)
Definition socket_in (s : Socket) (l : list Socket) : bool :=
  existsb (fun x => Nat.eqb (sock_id x) (sock_id s)) l.

(** [self._unicast_sender_dict[peer_name].method(...)] *)
Definition call_on_sender {A} (peer_name : string)
  (method : Socket -> M (A * Socket)) : M A :=
  self <- get_self ;;
  match dict_get peer_name (_unicast_sender_dict self) with
  | None => raise (KeyError peer_name)
  | Some s =>
      r <- method s ;;
      modify_self (fun d =>
        with_unicast_sender_dict
          (dict_set peer_name (snd r) (_unicast_sender_dict d)) d) ;;
      ret (fst r)
  end.

(** [self._broadcast_sender.method(...)] and the like *)
Definition call_on {A} (field : ZmqDriver -> Socket)
  (update : Socket -> ZmqDriver -> ZmqDriver)
  (method : Socket -> M (A * Socket)) : M A :=
  self <- get_self ;;
  r <- method (field self) ;;
  modify_self (update (snd r)) ;;
  ret (fst r).

(** ** The driver *)

Definition no_socket : Socket :=
  {| sock_id := 0; sock_kind := 0; sndtimeo := -1; subscribed := [];
     bound := []; connected := []; sent := [] |}.

Definition _setup_sockets : M unit :=
  self <- get_self ;;
  s <- zmq_socket zmq.PULL ;;
  modify_self (with_unicast_receiver s) ;;
  unicast_receiver_port <-
    call_on _unicast_receiver with_unicast_receiver
      (bind_to_random_port (_protocol self ++ "://*")) ;;
  debug ("Receive message via unicasting at " ++ _ip_address self ++ ":"
         ++ show_int unicast_receiver_port ++ ".") ;;
  modify_self (with_unicast_sender_dict []) ;;
  s <- zmq_socket zmq.PUB ;;
  modify_self (with_broadcast_sender s) ;;
  call_on _broadcast_sender with_broadcast_sender
    (setsockopt_sndtimeo (_send_timeout self)) ;;
  s <- zmq_socket zmq.SUB ;;
  modify_self (with_broadcast_receiver s) ;;
  call_on _broadcast_receiver with_broadcast_receiver
    (setsockopt_subscribe "") ;;
  broadcast_receiver_port <-
    call_on _broadcast_receiver with_broadcast_receiver
      (bind_to_random_port (_protocol self ++ "://*")) ;;
  debug ("Subscriber message at " ++ _ip_address self ++ ":"
         ++ show_int broadcast_receiver_port ++ ".") ;;
  modify_self (with_address
    [(zmq.PULL, _protocol self ++ "://" ++ _ip_address self ++ ":"
                ++ show_int unicast_receiver_port);
     (zmq.SUB, _protocol self ++ "://" ++ _ip_address self ++ ":"
               ++ show_int broadcast_receiver_port)]) ;;
  self <- get_self ;;
  modify_self (with_poller [_unicast_receiver self; _broadcast_receiver self]).

Definition __init__ (protocol : string) (send_timeout receive_timeout : Z)
  : M unit :=
  w <- get_world ;;
  match host_ip w with
  | None => raise gaierror
  | Some ip =>
      set_self {| _protocol := protocol; _send_timeout := send_timeout;
                  _receive_timeout := receive_timeout;
                  _ip_address := ip;
                  _unicast_sender_dict := [];
                  _broadcast_sender := no_socket;
                  _unicast_receiver := no_socket;
                  _broadcast_receiver := no_socket;
                  _address := []; _poller := [] |} ;;
      _setup_sockets
  end.

Definition address : M (list (Z * string)) :=
  self <- get_self ;; ret (_address self).

(** The body of the two loops of [connect]: one entry of one peer's address
    dict. *)
Definition connect_entry (peer_name : string) (socket_type : PyKey)
  (address : string) : M unit :=
  try_except
    (t <- int_ socket_type ;;
     if t =? zmq.PULL then
       s <- zmq_socket zmq.PUSH ;;
       modify_self (fun d =>
         with_unicast_sender_dict
           (dict_set peer_name s (_unicast_sender_dict d)) d) ;;
       self <- get_self ;;
       call_on_sender peer_name (setsockopt_sndtimeo (_send_timeout self)) ;;
       call_on_sender peer_name (sock_connect address) ;;
       debug ("Connects to " ++ peer_name ++ " via unicasting.")
     else
       t <- int_ socket_type ;;
       if t =? zmq.SUB then
         call_on _broadcast_sender with_broadcast_sender
           (sock_connect address) ;;
         debug ("Connects to " ++ peer_name ++ " via broadcasting.")
       else raise (SocketTypeError socket_type))
    (fun e => raise (PeersConnectionError peer_name e)).

Definition connect (peers_address_dict : list (string * list (PyKey * string)))
  : M unit :=
  for_each peers_address_dict (fun '(peer_name, address_dict) =>
    for_each address_dict (fun '(socket_type, address) =>
      connect_entry peer_name socket_type address)).

(** [send] and [broadcast] return [None] or an exception object. *)
Definition send (message : Message) : M (option exn) :=
  try_except
    (call_on_sender (destination message) (send_pyobj message) ;;
     debug ("Send a " ++ tag message ++ " message to "
            ++ destination message ++ ".") ;;
     ret None)
    (fun e => ret (Some (DriverSendError e))).

Definition broadcast (message : Message) : M (option exn) :=
  try_except
    (call_on _broadcast_sender with_broadcast_sender (send_pyobj message) ;;
     debug ("Broadcast a " ++ tag message ++ " message to all subscribers.") ;;
     ret None)
    (fun e => ret (Some (DriverSendError e))).

(** One pass of the loop of [receive], from [while True] to the [yield]. *)
Definition receive_pass : M Message :=
  self <- get_self ;;
  sockets <-
    try_except (poll (_receive_timeout self) (_poller self))
               (fun e => raise (DriverReceiveError e)) ;;
  if socket_in (_unicast_receiver self) sockets then
    recv_message <- recv_pyobj (_unicast_receiver self) ;;
    debug ("Receive a message from " ++ source recv_message
           ++ " through unicast receiver.") ;;
    ret recv_message
  else
    recv_message <- recv_pyobj (_broadcast_receiver self) ;;
    debug ("Receive a message from " ++ source recv_message
           ++ " through broadcast receiver.") ;;
    ret recv_message.

(** [receive] is a generator.  Its frame is not started, suspended at the
    [yield], or finished; [next] resumes it. *)
Inductive Frame : Type := Created | Suspended | Finished.

Inductive Resumed : Type :=
| Yield (m : Message)
| StopIteration
| Raised (e : exn)
| Blocked.

Definition resume_pass (c : Config) : Resumed * Frame * Config :=
  match receive_pass c with
  | (Ret m, c') => (Yield m, Suspended, c')
  | (Exc e, c') => (Raised e, Finished, c')
  | (Hang, c') => (Blocked, Finished, c')
  end.

Definition next (is_continuous : bool) (g : Frame) (c : Config)
  : Resumed * Frame * Config :=
  match g with
  | Created => resume_pass c
  | Suspended =>
      if negb is_continuous then (StopIteration, Finished, c)
      else resume_pass c
  | Finished => (StopIteration, Finished, c)
  end.

(** The messages the caller gets from at most [n] calls of [next], with
    what ended the iteration ([None]: the caller stopped asking). *)
Fixpoint take (n : nat) (is_continuous : bool) (g : Frame) (c : Config)
  : list Message * option Resumed * Config :=
  match n with
  | O => ([], None, c)
  | S n' =>
      match next is_continuous g c with
      | (Yield m, g', c') =>
          let '(ms, r, c'') := take n' is_continuous g' c' in
          (m :: ms, r, c'')
      | (r, _, c') => ([], Some r, c')
      end
  end.

(** ** Vocabulary of the properties *)

(** The Peer Connection Table of a configuration. *)
Definition table (c : Config) : list (string * Socket) :=
  _unicast_sender_dict (fst c).

(** The inner loop of [connect]: the address dict of one peer. *)
Definition connect_peer (peer_name : string)
  (address_dict : list (PyKey * string)) : M unit :=
  for_each address_dict (fun '(socket_type, address) =>
    connect_entry peer_name socket_type address).

(** A peer supplied an address of the unicast kind. *)
Definition supplies_unicast (peers : list (string * list (PyKey * string)))
  (p : string) : Prop :=
  exists ad k a, In (p, ad) peers /\ In (k, a) ad /\ py_int k = Some zmq.PULL.

(** What [connect] raises for a key that is neither kind. *)
Definition unrecognized (k : PyKey) : option exn :=
  match py_int k with
  | None => Some (ValueError k)
  | Some t =>
      if (t =? zmq.PULL) || (t =? zmq.SUB) then None
      else Some (SocketTypeError k)
  end.

(** The PUSH socket [connect] creates in world [w], before it is
    configured. *)
Definition fresh_push (w : World) : Socket :=
  {| sock_id := sockets_made w; sock_kind := zmq.PUSH; sndtimeo := -1;
     subscribed := []; bound := []; connected := []; sent := [] |}.

(** The next write fails (the script says so). *)
Definition write_fails (c : Config) : Prop :=
  exists text r, write_script (snd c) = Some text :: r.

(** The states a driver goes through: construction, then any calls of its
    methods, whatever they return or raise. *)
Inductive reachable : Config -> Prop :=
| reach_init protocol send_timeout receive_timeout c0 c :
    __init__ protocol send_timeout receive_timeout c0 = (Ret tt, c) ->
    reachable c
| reach_connect c peers :
    reachable c -> reachable (snd (connect peers c))
| reach_send c m :
    reachable c -> reachable (snd (send m c))
| reach_broadcast c m :
    reachable c -> reachable (snd (broadcast m c))
| reach_next c is_continuous g :
    reachable c -> reachable (snd (next is_continuous g c)).

(** The inbound sockets as [_setup_sockets] leaves them. *)
Record wf_driver (d : ZmqDriver) : Prop := {
  wf_unicast_kind : sock_kind (_unicast_receiver d) = zmq.PULL;
  wf_unicast_bound : bound (_unicast_receiver d) <> [];
  wf_broadcast_kind : sock_kind (_broadcast_receiver d) = zmq.SUB;
  wf_broadcast_bound : bound (_broadcast_receiver d) <> [];
  wf_broadcast_all : existsb (String.eqb "") (subscribed (_broadcast_receiver d)) = true;
  wf_distinct : sock_id (_unicast_receiver d) <> sock_id (_broadcast_receiver d);
  wf_poller : _poller d = [_unicast_receiver d; _broadcast_receiver d]
}.

(** The inbound side of a driver. *)
Definition inbound_of (d : ZmqDriver) : Socket * Socket * list Socket :=
  (_unicast_receiver d, _broadcast_receiver d, _poller d).

(** ** A driver to run the examples on *)

Definition blank : ZmqDriver :=
  {| _protocol := ""; _send_timeout := 0; _receive_timeout := 0;
     _ip_address := ""; _unicast_sender_dict := [];
     _broadcast_sender := no_socket; _unicast_receiver := no_socket;
     _broadcast_receiver := no_socket; _address := []; _poller := [] |}.

Definition quiet_world : World :=
  {| now := 0; unicast_inbox := []; broadcast_inbox := [];
     poll_script := []; write_script := [];
     refused := [("tcp://", "Invalid argument")];
     unbindable := [("bogus://*", "Protocol not supported")];
     free_ports := [5001; 5002]; host_ip := Some "10.0.0.1";
     sockets_made := 0; log := [] |}.

(** [ZmqDriver("tcp", send_timeout=100, receive_timeout=10)] *)
Definition driver0 : Config := snd (__init__ "tcp" 100 10 (blank, quiet_world)).

Definition hello : Message :=
  {| source := "learner"; destination := "actor"; tag := "task";
     payload := "42" |}.

Definition news : Message :=
  {| source := "learner"; destination := ""; tag := "exit";
     payload := "" |}.

(** [driver0] in a world with the given traffic. *)
Definition with_traffic (u b : list (Z * Message)) (c : Config) : Config :=
  (fst c, with_broadcast_inbox b (with_unicast_inbox u (snd c))).

(** Two peers: one gives both addresses (the keys as they come out of a
    text format), the other only its broadcast address. *)
Definition two_peers : list (string * list (PyKey * string)) :=
  [("actor", [(KStr "7" (Some 7), "tcp://10.0.0.2:5000");
              (KStr "2" (Some 2), "tcp://10.0.0.2:6000")]);
   ("monitor", [(KInt zmq.SUB, "tcp://10.0.0.3:6000")])].

(** [driver0] connected to [two_peers], the next write set to time out. *)
Definition congested : Config :=
  let c := snd (connect two_peers driver0) in
  (fst c, with_write_script [Some "Resource temporarily unavailable"] (snd c)).

(** [driver0] with [n] copies of [hello] waiting on the unicast receiver. *)
Definition busy (n : nat) : Config :=
  with_traffic (repeat (0, hello) n) [] driver0.

(** A world for [driver0] where a unicast message arrives 50 ms from now
    and nothing is ever broadcast. *)
Definition late_unicast : World :=
  with_broadcast_inbox [] (with_unicast_inbox [(50, hello)] (snd driver0)).

(** ** Vocabulary of the further properties *)

(** What construction fixes: the settings and the advertised addresses. *)
Definition settings_of (d : ZmqDriver)
  : string * Z * Z * string * list (Z * string) :=
  (_protocol d, _send_timeout d, _receive_timeout d, _ip_address d,
   _address d).

(** An entry [connect] processes without error in world [w]. *)
Definition entry_accepted (w : World) (e : PyKey * string) : Prop :=
  (py_int (fst e) = Some zmq.PULL \/ py_int (fst e) = Some zmq.SUB)
  /\ dict_get (snd e) (refused w) = None.

(** The addresses of the broadcast kind in an address dict and in an address
    map, in the order [connect] meets them. *)
Definition broadcast_entries (ad : list (PyKey * string)) : list string :=
  flat_map (fun '(k, a) =>
              match py_int k with
              | Some t => if t =? zmq.SUB then [a] else []
              | None => []
              end) ad.

Definition broadcast_addresses
  (peers : list (string * list (PyKey * string))) : list string :=
  flat_map (fun '(_, ad) => broadcast_entries ad) peers.

(** The last address of the unicast kind in a peer's address dict. *)
Fixpoint last_unicast (ad : list (PyKey * string)) : option string :=
  match ad with
  | [] => None
  | (k, a) :: r =>
      match last_unicast r with
      | Some b => Some b
      | None =>
          match py_int k with
          | Some t => if t =? zmq.PULL then Some a else None
          | None => None
          end
      end
  end.

(** The identities of the sockets a driver holds: the two receivers, the
    broadcast sender, and the senders of the table. *)
Definition socket_ids (d : ZmqDriver) : list nat :=
  sock_id (_unicast_receiver d) :: sock_id (_broadcast_receiver d)
  :: sock_id (_broadcast_sender d)
  :: map (fun e => sock_id (snd e)) (_unicast_sender_dict d).

(** The outbound sockets as [connect] configures them. *)
Definition sender_ok (d : ZmqDriver) (s : Socket) : Prop :=
  sock_kind s = zmq.PUSH /\ sndtimeo s = _send_timeout d
  /\ (List.length (connected s) <= 1)%nat /\ bound s = [].

(** The socket [connect] leaves for a peer whose last unicast address is
    [a], in a call that goes from [c] to [c']: a PUSH socket made during the
    call, with the send timeout, connected to [a], nothing written to it. *)
Definition connected_sender (c c' : Config) (a : string) (s : Socket) : Prop :=
  sock_kind s = zmq.PUSH /\ sndtimeo s = _send_timeout (fst c)
  /\ connected s = [a] /\ sent s = []
  /\ (sockets_made (snd c) <= sock_id s < sockets_made (snd c'))%nat.

(** A peer that gives a unicast address twice, the second time with the
    key as text. *)
Definition moved_peer : list (string * list (PyKey * string)) :=
  [("actor", [(KInt zmq.PULL, "tcp://10.0.0.2:5000");
              (KInt zmq.SUB, "tcp://10.0.0.2:6000");
              (KStr "7" (Some 7), "tcp://10.0.0.9:5000")])].

(** The outbound side of a driver between two calls: every sender of the
    table is as [connect] configures it, and the broadcast sender is a PUB
    socket with the send timeout. *)
Definition outbound_ok (d : ZmqDriver) : Prop :=
  (forall p s, dict_get p (_unicast_sender_dict d) = Some s -> sender_ok d s)
  /\ sock_kind (_broadcast_sender d) = zmq.PUB
  /\ sndtimeo (_broadcast_sender d) = _send_timeout d.

(** No two sockets of the driver are the same socket, and all were made by
    the context. *)
Definition ids_ok (c : Config) : Prop :=
  NoDup (socket_ids (fst c))
  /\ forall i, In i (socket_ids (fst c)) -> (i < sockets_made (snd c))%nat.

(** A caller that sends the messages of a list, one call of [send] each,
    and keeps what the calls return. *)
Fixpoint send_all (ms : list Message) (c : Config)
  : list (Outcome (option exn)) * Config :=
  match ms with
  | [] => ([], c)
  | m :: r =>
      let (o, c1) := send m c in
      let (os, c2) := send_all r c1 in
      (o :: os, c2)
  end.

(** The messages of a list whose writes the script lets through. *)
Fixpoint accepted (ms : list Message) (script : list (option string))
  : list Message :=
  match ms with
  | [] => []
  | m :: r =>
      match script with
      | Some _ :: _ => accepted r (tl script)
      | _ => m :: accepted r (tl script)
      end
  end.

(** A world for [driver0] with two unicast messages to come and a
    broadcast message between them. *)
Definition mixed_traffic : World :=
  with_broadcast_inbox [(55, news)]
    (with_unicast_inbox [(50, hello); (60, hello)] (snd driver0)).

(** [ms] takes its elements from [xs] and [ys], keeping the order of each. *)
Inductive Interleave {A} : list A -> list A -> list A -> Prop :=
| interleave_nil : Interleave [] [] []
| interleave_left x xs ys ms :
    Interleave xs ys ms -> Interleave (x :: xs) ys (x :: ms)
| interleave_right y xs ys ms :
    Interleave xs ys ms -> Interleave xs (y :: ys) (y :: ms).

(** ** The adjacency loader

    [load_adj_from_csv] of
    [maro/simulator/scenarios/citi_bike/adj_loader.py].  The file system,
    [os.path.expanduser] and [float] are parameters: [open_csv] gives the
    rows [csv.reader] reads from the file at a path ([None]: [open]
    raises), [py_float] the value of a cell ([None]: [float] raises
    ValueError). *)
Module adj_loader.
Section Loader.
Variable F : Type.
Variable py_float : string -> option F.
Variable expanduser : string -> string.
Variable open_csv : string -> option (list (list string)).

Inductive Outcome : Type :=
| Returns (adj : list (list F))
| RaisesOSError (file : string)
| RaisesValueError (col : string).

(** [[float(col) for col in row]]: the cells from left to right; the first
    cell that is no number raises. *)
Fixpoint floats (row : list string) : list F + string :=
  match row with
  | [] => inl []
  | col :: r =>
      match py_float col with
      | None => inr col
      | Some x =>
          match floats r with
          | inl xs => inl (x :: xs)
          | inr e => inr e
          end
      end
  end.

(** The loop over the rows, with the counter [skiprows] and the list [adj]
    it appends to. *)
Fixpoint rows_loop (reader : list (list string)) (skiprows : Z)
  (adj : list (list F)) : Outcome :=
  match reader with
  | [] => Returns adj
  | row :: rest =>
      if 0 <? skiprows then rows_loop rest (skiprows - 1) adj
      else
        match floats row with
        | inl xs => rows_loop rest skiprows (adj ++ [xs])
        | inr col => RaisesValueError col
        end
  end.

Definition load_adj_from_csv (file : string) (skiprows : Z) : Outcome :=
  let file := if String.prefix "~" file then expanduser file else file in
  match open_csv file with
  | None => RaisesOSError file
  | Some reader => rows_loop reader skiprows []
  end.

(** The values of rows that all convert. *)
Fixpoint all_floats (rows : list (list string)) : list (list F) + string :=
  match rows with
  | [] => inl []
  | row :: rest =>
      match floats row with
      | inr e => inr e
      | inl xs =>
          match all_floats rest with
          | inl xss => inl (xs :: xss)
          | inr e => inr e
          end
      end
  end.
End Loader.
End adj_loader.

(** For the examples of the loader, cells hold whole numbers in ASCII and
    the parameter [py_float] is this reader of whole numbers. *)
Definition is_space (c : ascii) : bool :=
  let n := nat_of_ascii c in
  ((9 <=? n) && (n <=? 13) || (n =? 32))%nat.

Definition digit_of (c : ascii) : option Z :=
  let n := nat_of_ascii c in
  if ((48 <=? n) && (n <=? 57))%nat then Some (Z.of_nat (n - 48)) else None.

Fixpoint lstrip (s : list ascii) : list ascii :=
  match s with
  | c :: r => if is_space c then lstrip r else s
  | [] => []
  end.

Definition strip (s : list ascii) : list ascii :=
  rev (lstrip (rev (lstrip s))).

(** Decimal digits with single underscores between them; [prev] tells
    whether the previous character was a digit. *)
Fixpoint digits (prev : bool) (acc : Z) (s : list ascii) : option Z :=
  match s with
  | [] => if prev then Some acc else None
  | c :: r =>
      match digit_of c with
      | Some d => digits true (10 * acc + d) r
      | None => if Ascii.eqb c "_" && prev then digits false acc r else None
      end
  end.

(** The whole number an ASCII text writes: white space around it, an
    optional sign, digits.  [None]: the text is no such number. *)
Definition int_of_str (s : string) : option Z :=
  match strip (list_ascii_of_string s) with
  | "+"%char :: r => digits false 0 r
  | "-"%char :: r => option_map Z.opp (digits false 0 r)
  | r => digits false 0 r
  end.

(** A file system with one adjacency file under the user's home, a header
    row first. *)
Definition home_expanduser (file : string) : string :=
  match file with
  | String "~" rest => "/home/maro" ++ rest
  | _ => file
  end.

Definition one_file (file : string) : option (list (list string)) :=
  if String.eqb file "/home/maro/adj.csv"
  then Some [["station"; "s1"; "s2"]; ["0"; "3"]; ["3"; "0"; "7"]]
  else None.

(** ** Dicts *)

Lemma dict_get_set_eq {V} (k : string) (v : V) d :
  dict_get k (dict_set k v d) = Some v.
Proof.
  induction d as [|[k' v'] r IH]; simpl.
  - now rewrite String.eqb_refl.
  - destruct (String.eqb k k') eqn:E; simpl.
    + now rewrite String.eqb_refl.
    + now rewrite E.
Qed.

Lemma dict_get_set_neq {V} (k q : string) (v : V) d :
  q <> k -> dict_get q (dict_set k v d) = dict_get q d.
Proof.
  intros Hne. induction d as [|[k' v'] r IH]; simpl.
  - destruct (String.eqb q k) eqn:E; [apply String.eqb_eq in E; congruence | reflexivity].
  - destruct (String.eqb k k') eqn:E; simpl.
    + apply String.eqb_eq in E; subst k'.
      destruct (String.eqb q k) eqn:E'; [apply String.eqb_eq in E'; congruence | reflexivity].
    + now rewrite IH.
Qed.

Lemma dict_set_set {V} (k : string) (v v' : V) d :
  dict_set k v' (dict_set k v d) = dict_set k v' d.
Proof.
  induction d as [|[k' w] r IH]; simpl.
  - now rewrite String.eqb_refl.
  - destruct (String.eqb k k') eqn:E; simpl.
    + now rewrite String.eqb_refl.
    + now rewrite E, IH.
Qed.

Lemma dict_keys_set {V} (k : string) (v : V) d q :
  In q (dict_keys (dict_set k v d)) <-> q = k \/ In q (dict_keys d).
Proof.
  unfold dict_keys. induction d as [|[k' w] r IH]; simpl.
  - intuition.
  - destruct (String.eqb k k') eqn:E; simpl.
    + apply String.eqb_eq in E; subst k'. intuition.
    + rewrite IH. intuition.
Qed.

Lemma dict_get_keys {V} (k : string) (d : list (string * V)) :
  In k (dict_keys d) <-> dict_get k d <> None.
Proof.
  unfold dict_keys. induction d as [|[k' w] r IH]; simpl.
  - intuition.
  - destruct (String.eqb k k') eqn:E.
    + apply String.eqb_eq in E; subst k'. intuition congruence.
    + apply String.eqb_neq in E. rewrite <- IH. intuition congruence.
Qed.

Lemma dict_set_NoDup {V} (k : string) (v : V) d :
  NoDup (dict_keys d) -> NoDup (dict_keys (dict_set k v d)).
Proof.
  unfold dict_keys. induction d as [|[k' w] r IH]; simpl; intros H.
  - constructor; [intros [] | constructor].
  - inversion H as [|? ? Hn Hr]; subst.
    destruct (String.eqb k k') eqn:E; simpl.
    + apply String.eqb_eq in E; subst k'. now constructor.
    + constructor; [|now apply IH].
      intros Hin. apply (dict_keys_set k v r k') in Hin.
      destruct Hin as [->|Hin]; [now rewrite String.eqb_refl in E | contradiction].
Qed.

Lemma dict_get_In {V} (k : string) (v : V) d :
  dict_get k d = Some v -> In (k, v) d.
Proof.
  induction d as [|[k' w] r IH]; simpl; [discriminate|].
  destruct (String.eqb k k') eqn:E.
  - apply String.eqb_eq in E; subst k'. intros [= ->]. now left.
  - intros H. right. now apply IH.
Qed.

Lemma NoDup_In_unique {V} (k : string) (v v' : V) d :
  NoDup (dict_keys d) -> In (k, v) d -> In (k, v') d -> v = v'.
Proof.
  unfold dict_keys. induction d as [|[k' w] r IH]; simpl; [intros _ []|].
  intros H. inversion H as [|? ? Hn Hr]; subst.
  intros [E1|H1] [E2|H2].
  - congruence.
  - inversion E1; subst. exfalso. apply Hn. now apply (in_map fst) in H2.
  - inversion E2; subst. exfalso. apply Hn. now apply (in_map fst) in H1.
  - now apply IH.
Qed.

(** Unfolding of the monad and of the library calls. *)
Ltac step :=
  unfold call_on_sender, call_on, debug, int_, zmq_socket,
    setsockopt_sndtimeo, setsockopt_subscribe, sock_connect, send_pyobj,
    bind_to_random_port,
    try_except, bind, ret, raise, hang, get_self, set_self, get_world,
    set_world, modify_self, modify_world;
  cbn -[append dict_get dict_set Z.eqb show_int].

Ltac steps :=
  repeat (step; rewrite ?dict_get_set_eq, ?Z.eqb_refl;
          change (zmq.SUB =? zmq.PULL) with false).

(** ** Loops and handlers *)

Lemma for_each_app {X} (l1 l2 : list X) (body : X -> M unit) c :
  for_each (l1 ++ l2) body c =
  match for_each l1 body c with
  | (Ret _, c') => for_each l2 body c'
  | (Exc e, c') => (Exc e, c')
  | (Hang, c') => (Hang, c')
  end.
Proof.
  revert c. induction l1 as [|x r IH]; intros c; simpl.
  - reflexivity.
  - unfold bind. destruct (body x c) as [[[]|e|] c']; auto.
Qed.

(** ** One entry of an address dict, case by case *)

Section ConnectEntry.
Variables (p : string) (k : PyKey) (a : string) (d : ZmqDriver) (w : World).

Let w1 := with_sockets_made (S (sockets_made w)) w.

Lemma connect_entry_not_int :
  py_int k = None ->
  connect_entry p k a (d, w) = (Exc (PeersConnectionError p (ValueError k)), (d, w)).
Proof.
  intros H. unfold connect_entry. step. now rewrite H.
Qed.

Lemma connect_entry_other t :
  py_int k = Some t -> t <> zmq.PULL -> t <> zmq.SUB ->
  connect_entry p k a (d, w) =
  (Exc (PeersConnectionError p (SocketTypeError k)), (d, w)).
Proof.
  intros H H1 H2. apply Z.eqb_neq in H1, H2. unfold connect_entry.
  repeat (step; rewrite ?H, ?H1, ?H2). reflexivity.
Qed.

Lemma connect_entry_unrecognized e :
  unrecognized k = Some e ->
  connect_entry p k a (d, w) = (Exc (PeersConnectionError p e), (d, w)).
Proof.
  unfold unrecognized. destruct (py_int k) as [t|] eqn:H.
  - destruct (t =? zmq.PULL) eqn:E1; [discriminate|].
    destruct (t =? zmq.SUB) eqn:E2; [discriminate|]. simpl. intros [= <-].
    apply connect_entry_other with t; auto; now apply Z.eqb_neq.
  - intros [= <-]. now apply connect_entry_not_int.
Qed.

Lemma connect_entry_unicast_refused text :
  py_int k = Some zmq.PULL -> dict_get a (refused w) = Some text ->
  connect_entry p k a (d, w) =
  (Exc (PeersConnectionError p (ZMQError text)),
   (with_unicast_sender_dict
      (dict_set p (with_sndtimeo (_send_timeout d) (fresh_push w))
                (_unicast_sender_dict d)) d, w1)).
Proof.
  intros H Hr. unfold connect_entry.
  step. rewrite H. steps. rewrite Hr. steps.
  rewrite !dict_set_set. reflexivity.
Qed.

Lemma connect_entry_unicast_ok :
  py_int k = Some zmq.PULL -> dict_get a (refused w) = None ->
  connect_entry p k a (d, w) =
  (Ret tt,
   (with_unicast_sender_dict
      (dict_set p (with_connected [a]
                     (with_sndtimeo (_send_timeout d) (fresh_push w)))
                (_unicast_sender_dict d)) d,
    with_log (log w ++ ["Connects to " ++ p ++ " via unicasting."]) w1)).
Proof.
  intros H Hr. unfold connect_entry.
  step. rewrite H. steps. rewrite Hr. steps.
  rewrite !dict_set_set. reflexivity.
Qed.

Lemma connect_entry_broadcast_refused text :
  py_int k = Some zmq.SUB -> dict_get a (refused w) = Some text ->
  connect_entry p k a (d, w) =
  (Exc (PeersConnectionError p (ZMQError text)), (d, w)).
Proof.
  intros H Hr. unfold connect_entry.
  step. rewrite H. steps. rewrite Hr. reflexivity.
Qed.

Lemma connect_entry_broadcast_ok :
  py_int k = Some zmq.SUB -> dict_get a (refused w) = None ->
  connect_entry p k a (d, w) =
  (Ret tt,
   (with_broadcast_sender
      (with_connected (connected (_broadcast_sender d) ++ [a])
                      (_broadcast_sender d)) d,
    with_log (log w ++ ["Connects to " ++ p ++ " via broadcasting."]) w)).
Proof.
  intros H Hr. unfold connect_entry.
  step. rewrite H. steps. rewrite Hr. reflexivity.
Qed.
End ConnectEntry.

(** Every entry falls under one of the cases above. *)
Lemma connect_entry_cases p k a d w :
  (exists e, unrecognized k = Some e /\
     connect_entry p k a (d, w) = (Exc (PeersConnectionError p e), (d, w)))
  \/ (py_int k = Some zmq.PULL /\
      exists s w',
        (exists r, connect_entry p k a (d, w) =
           (r, (with_unicast_sender_dict
                  (dict_set p s (_unicast_sender_dict d)) d, w'))
           /\ r <> Hang))
  \/ (py_int k = Some zmq.SUB /\
      exists s w' r,
        connect_entry p k a (d, w) = (r, (with_broadcast_sender s d, w'))
        /\ r <> Hang).
Proof.
  destruct (unrecognized k) as [e|] eqn:U.
  - left. exists e. split; auto. now apply connect_entry_unrecognized.
  - right. unfold unrecognized in U. destruct (py_int k) as [t|] eqn:H; [|discriminate].
    destruct (t =? zmq.PULL) eqn:E1.
    + apply Z.eqb_eq in E1; subst t. left. split; auto.
      destruct (dict_get a (refused w)) as [text|] eqn:Hr.
      * do 2 eexists. eexists. split.
        -- now apply connect_entry_unicast_refused with (text := text).
        -- discriminate.
      * do 2 eexists. eexists. split.
        -- now apply connect_entry_unicast_ok.
        -- discriminate.
    + destruct (t =? zmq.SUB) eqn:E2; [|discriminate].
      apply Z.eqb_eq in E2; subst t. right. split; auto.
      destruct (dict_get a (refused w)) as [text|] eqn:Hr.
      * exists (_broadcast_sender d), w. eexists. split.
        -- rewrite connect_entry_broadcast_refused with (text := text) by auto.
           now destruct d.
        -- discriminate.
      * do 3 eexists. split.
        -- now apply connect_entry_broadcast_ok.
        -- discriminate.
Qed.

Lemma unrecognized_not_unicast k e :
  unrecognized k = Some e -> py_int k <> Some zmq.PULL.
Proof.
  unfold unrecognized. intros H E. rewrite E in H. discriminate.
Qed.

(** The names in the table after one entry. *)
Lemma connect_entry_keys p k a c r c' :
  connect_entry p k a c = (r, c') ->
  forall q, In q (dict_keys (table c')) <->
            In q (dict_keys (table c)) \/ (q = p /\ py_int k = Some zmq.PULL).
Proof.
  destruct c as [d w]. intros H q.
  destruct (connect_entry_cases p k a d w)
    as [(e & U & E)|[(K & s & w' & r' & E & _)|(K & s & w' & r' & E & _)]];
    rewrite E in H; inversion H; subst; unfold table; simpl.
  - apply unrecognized_not_unicast in U. intuition.
  - rewrite dict_keys_set. intuition.
  - assert (zmq.SUB <> zmq.PULL) by discriminate. intuition congruence.
Qed.

(** The other peers' sockets are not touched by an entry of peer [p]. *)
Lemma connect_entry_others p k a c r c' q :
  connect_entry p k a c = (r, c') -> q <> p ->
  dict_get q (table c') = dict_get q (table c).
Proof.
  destruct c as [d w]. intros H Hq.
  destruct (connect_entry_cases p k a d w)
    as [(e & U & E)|[(K & s & w' & r' & E & _)|(K & s & w' & r' & E & _)]];
    rewrite E in H; inversion H; subst; unfold table; simpl; auto.
  now apply dict_get_set_neq.
Qed.

Lemma connect_entry_NoDup p k a c r c' :
  connect_entry p k a c = (r, c') ->
  NoDup (dict_keys (table c)) -> NoDup (dict_keys (table c')).
Proof.
  destruct c as [d w]. intros H.
  destruct (connect_entry_cases p k a d w)
    as [(e & U & E)|[(K & s & w' & r' & E & _)|(K & s & w' & r' & E & _)]];
    rewrite E in H; inversion H; subst; unfold table; simpl; auto.
  apply dict_set_NoDup.
Qed.

Lemma connect_entry_refused_same p k a c r c' :
  connect_entry p k a c = (r, c') -> refused (snd c') = refused (snd c).
Proof.
  destruct c as [d w]. intros H.
  destruct (unrecognized k) as [e|] eqn:U.
  - rewrite (connect_entry_unrecognized p k a d w e U) in H. now inversion H.
  - unfold unrecognized in U. destruct (py_int k) as [t|] eqn:K; [|discriminate].
    destruct (t =? zmq.PULL) eqn:E1.
    + apply Z.eqb_eq in E1; subst t.
      destruct (dict_get a (refused w)) as [text|] eqn:Hr.
      * rewrite (connect_entry_unicast_refused p k a d w text K Hr) in H.
        now inversion H.
      * rewrite (connect_entry_unicast_ok p k a d w K Hr) in H. now inversion H.
    + destruct (t =? zmq.SUB) eqn:E2; [|discriminate].
      apply Z.eqb_eq in E2; subst t.
      destruct (dict_get a (refused w)) as [text|] eqn:Hr.
      * rewrite (connect_entry_broadcast_refused p k a d w text K Hr) in H.
        now inversion H.
      * rewrite (connect_entry_broadcast_ok p k a d w K Hr) in H. now inversion H.
Qed.

(** An invariant of the body of a loop is an invariant of the loop. *)
Lemma for_each_invariant {X} (I : Config -> Prop) (l : list X)
  (body : X -> M unit) :
  (forall x c r c', body x c = (r, c') -> I c -> I c') ->
  forall c r c', for_each l body c = (r, c') -> I c -> I c'.
Proof.
  intros Hb. induction l as [|x l IH]; intros c r c' H Hc; simpl in H.
  - unfold ret in H. now inversion H; subst.
  - unfold bind in H. destruct (body x c) as [[[]|e|] c1] eqn:E.
    + eapply IH; eauto.
    + inversion H; subst. eauto.
    + inversion H; subst. eauto.
Qed.

Lemma connect_NoDup peers c r c' :
  connect peers c = (r, c') ->
  NoDup (dict_keys (table c)) -> NoDup (dict_keys (table c')).
Proof.
  unfold connect.
  apply (for_each_invariant (fun c => NoDup (dict_keys (table c)))).
  intros [p ad].
  apply (for_each_invariant (fun c => NoDup (dict_keys (table c)))).
  intros [k a]. apply connect_entry_NoDup.
Qed.

Lemma connect_peer_keys p ad : forall c c',
  connect_peer p ad c = (Ret tt, c') ->
  forall q, In q (dict_keys (table c')) <->
            In q (dict_keys (table c))
            \/ (q = p /\ exists k a, In (k, a) ad /\ py_int k = Some zmq.PULL).
Proof.
  unfold connect_peer. induction ad as [|[k a] ad IH]; intros c c' H q; simpl in H.
  - unfold ret in H. inversion H; subst. split; [auto|].
    intros [?|(_ & k & a & [] & _)]; auto.
  - unfold bind in H. destruct (connect_entry p k a c) as [[[]|e|] c1] eqn:E;
      try discriminate.
    rewrite (IH _ _ H q), (connect_entry_keys _ _ _ _ _ _ E q). split.
    + intros [[?|[-> K]]|(-> & k' & a' & Hin & K)]; auto.
      * right. split; auto. exists k, a. split; [now left|auto].
      * right. split; auto. exists k', a'. split; [now right|auto].
    + intros [?|(-> & k' & a' & [Heq|Hin] & K)]; auto.
      * inversion Heq; subst. auto.
      * right. split; auto. exists k', a'. auto.
Qed.

Lemma connect_keys peers : forall c c',
  connect peers c = (Ret tt, c') ->
  forall q, In q (dict_keys (table c')) <->
            In q (dict_keys (table c)) \/ supplies_unicast peers q.
Proof.
  unfold connect, supplies_unicast.
  induction peers as [|[p ad] peers IH]; intros c c' H q; simpl in H.
  - unfold ret in H. inversion H; subst. split; [auto|].
    intros [?|(ad & k & a & [] & _)]; auto.
  - unfold bind in H.
    destruct (for_each ad _ c) as [[[]|e|] c1] eqn:E; try discriminate.
    rewrite (IH _ _ H q), (connect_peer_keys p ad c c1 E q). split.
    + intros [[?|(-> & k & a & Hin & K)]|(ad' & k & a & Hin & Hin' & K)]; auto.
      * right. exists ad, k, a. split; [now left|auto].
      * right. exists ad', k, a. split; [now right|auto].
    + intros [?|(ad' & k & a & [Heq|Hin] & Hin' & K)]; auto.
      * inversion Heq; subst. left. right. split; auto. exists k, a. auto.
      * right. exists ad', k, a. auto.
Qed.

Lemma connect_refused_same peers c r c' :
  connect peers c = (r, c') -> refused (snd c') = refused (snd c).
Proof.
  revert c r c'.
  assert (G : forall (c0 c : Config) r c',
    connect peers c = (r, c') ->
    refused (snd c) = refused (snd c0) -> refused (snd c') = refused (snd c0)).
  { intros c0. unfold connect.
    apply (for_each_invariant (fun c => refused (snd c) = refused (snd c0))).
    intros [p ad].
    apply (for_each_invariant (fun c => refused (snd c) = refused (snd c0))).
    intros [k a] c r c' H E. now rewrite (connect_entry_refused_same _ _ _ _ _ _ H). }
  intros c r c' H. now apply (G c c r c').
Qed.

(** [connect] up to an entry, then the entry, then the rest. *)
Lemma connect_split pre p ad1 k a ad2 post c c1 :
  connect (pre ++ [(p, ad1)]) c = (Ret tt, c1) ->
  connect (pre ++ (p, (ad1 ++ (k, a) :: ad2)%list) :: post) c =
  match connect_entry p k a c1 with
  | (Ret _, c2) => (connect_peer p ad2 ;; connect post) c2
  | (Exc e, c2) => (Exc e, c2)
  | (Hang, c2) => (Hang, c2)
  end.
Proof.
  unfold connect, connect_peer. rewrite !for_each_app.
  destruct (for_each pre _ c) as [[[]|e|] c0]; try discriminate.
  simpl. unfold bind.
  intros H. rewrite for_each_app.
  destruct (for_each ad1 _ c0) as [[[]|e|] c0']; try discriminate.
  unfold ret in H. inversion H; subst c0'. simpl. unfold bind.
  destruct (connect_entry p k a c1) as [[[]|e|] c2]; reflexivity.
Qed.

(** ** Sending *)

Lemma send_unknown m d w :
  dict_get (destination m) (_unicast_sender_dict d) = None ->
  send m (d, w) = (Ret (Some (DriverSendError (KeyError (destination m)))), (d, w)).
Proof. intros H. unfold send. step. now rewrite H. Qed.

Lemma send_write_fails m d w s text r :
  dict_get (destination m) (_unicast_sender_dict d) = Some s ->
  write_script w = Some text :: r ->
  send m (d, w) =
  (Ret (Some (DriverSendError (ZMQError text))), (d, with_write_script r w)).
Proof. intros H Hw. unfold send. step. rewrite H. step. now rewrite Hw. Qed.

Lemma send_write_ok m d w s :
  dict_get (destination m) (_unicast_sender_dict d) = Some s ->
  (forall text r, write_script w <> Some text :: r) ->
  send m (d, w) =
  (Ret None,
   (with_unicast_sender_dict
      (dict_set (destination m) (with_sent (sent s ++ [m]) s)
                (_unicast_sender_dict d)) d,
    with_log (log w ++ ["Send a " ++ tag m ++ " message to "
                        ++ destination m ++ "."])
             (with_write_script (tl (write_script w)) w))).
Proof.
  intros H Hw. unfold send. step. rewrite H. step.
  destruct (write_script w) as [|[text|] r] eqn:E; try reflexivity.
  now destruct (Hw text r).
Qed.

Lemma broadcast_write_fails m d w text r :
  write_script w = Some text :: r ->
  broadcast m (d, w) =
  (Ret (Some (DriverSendError (ZMQError text))), (d, with_write_script r w)).
Proof. intros Hw. unfold broadcast. step. now rewrite Hw. Qed.

Lemma broadcast_write_ok m d w :
  (forall text r, write_script w <> Some text :: r) ->
  broadcast m (d, w) =
  (Ret None,
   (with_broadcast_sender
      (with_sent (sent (_broadcast_sender d) ++ [m]) (_broadcast_sender d)) d,
    with_log (log w ++ ["Broadcast a " ++ tag m
                        ++ " message to all subscribers."])
             (with_write_script (tl (write_script w)) w))).
Proof.
  intros Hw. unfold broadcast. step.
  destruct (write_script w) as [|[text|] r] eqn:E; try reflexivity.
  now destruct (Hw text r).
Qed.

Lemma write_fails_dec c :
  write_fails c \/ (forall text r, write_script (snd c) <> Some text :: r).
Proof.
  unfold write_fails. destruct (write_script (snd c)) as [|[text|] r].
  - right. discriminate.
  - left. eauto.
  - right. discriminate.
Qed.

Lemma send_NoDup m c :
  NoDup (dict_keys (table c)) -> NoDup (dict_keys (table (snd (send m c)))).
Proof.
  destruct c as [d w]. intros H.
  destruct (dict_get (destination m) (_unicast_sender_dict d)) as [s|] eqn:G.
  - destruct (write_fails_dec (d, w)) as [(text & r & Hw)|Hw]; simpl in Hw.
    + now rewrite (send_write_fails m d w s text r G Hw).
    + rewrite (send_write_ok m d w s G Hw). unfold table. simpl.
      now apply dict_set_NoDup.
  - now rewrite (send_unknown m d w G).
Qed.

Lemma broadcast_table m c : table (snd (broadcast m c)) = table c.
Proof.
  destruct c as [d w].
  destruct (write_fails_dec (d, w)) as [(text & r & Hw)|Hw]; simpl in Hw.
  - now rewrite (broadcast_write_fails m d w text r Hw).
  - now rewrite (broadcast_write_ok m d w Hw).
Qed.

(** ** Receiving *)

Lemma poll_inspect timeout reg c r c1 :
  poll timeout reg c = (r, c1) ->
  fst c1 = fst c
  /\ unicast_inbox (snd c1) = unicast_inbox (snd c)
  /\ broadcast_inbox (snd c1) = broadcast_inbox (snd c)
  /\ write_script (snd c1) = write_script (snd c)
  /\ forall ready, r = Ret ready ->
       ready = [] \/ exists t, ready = ready_at t reg (snd c).
Proof.
  destruct c as [d w]. unfold poll. step.
  destruct (poll_script w) as [|[text|] s].
  - destruct (ready_at (now w) reg w) as [|x l] eqn:R.
    + destruct (next_arrival reg w) as [t|].
      * destruct ((timeout <? 0) || (t <=? now w + timeout)); step;
          intros [= <- <-]; simpl; repeat split; auto; intros ? [= <-]; eauto.
      * destruct (timeout <? 0); step; intros [= <- <-]; simpl;
          repeat split; auto; try discriminate. intros ? [= <-]; eauto.
    + intros [= <- <-]; simpl; repeat split; auto. intros ? [= <-].
      right. exists (now w). now rewrite R.
  - intros [= <- <-]; simpl; repeat split; auto. discriminate.
  - destruct (ready_at (now w) reg w) as [|x l] eqn:R.
    + destruct (next_arrival reg w) as [t|].
      * destruct ((timeout <? 0) || (t <=? now w + timeout)); step;
          intros [= <- <-]; simpl; repeat split; auto; intros ? [= <-]; eauto.
      * destruct (timeout <? 0); step; intros [= <- <-]; simpl;
          repeat split; auto; try discriminate. intros ? [= <-]; eauto.
    + intros [= <- <-]; simpl; repeat split; auto. intros ? [= <-].
      right. exists (now w). now rewrite R.
Qed.

Lemma recv_pyobj_self s c r c1 :
  recv_pyobj s c = (r, c1) -> fst c1 = fst c.
Proof.
  destruct c as [d w]. unfold recv_pyobj. step.
  destruct (inbox s w) as [|[t m] q]; intros [= <- <-]; reflexivity.
Qed.

Section Inbound.
Variable d : ZmqDriver.
Hypothesis wf : wf_driver d.

Lemma wf_inbox_unicast w : inbox (_unicast_receiver d) w = unicast_inbox w.
Proof.
  unfold inbox. destruct wf as [K B _ _ _ _ _].
  destruct (bound (_unicast_receiver d)); [congruence|].
  now rewrite K, Z.eqb_refl.
Qed.

Lemma wf_inbox_broadcast w :
  inbox (_broadcast_receiver d) w = broadcast_inbox w.
Proof.
  unfold inbox. destruct wf as [_ _ K B A _ _].
  destruct (bound (_broadcast_receiver d)); [congruence|].
  now rewrite K, A.
Qed.

Lemma wf_ready_at t w :
  ready_at t (_poller d) w =
  ((if arrived t (unicast_inbox w) then [_unicast_receiver d] else [])
   ++ (if arrived t (broadcast_inbox w) then [_broadcast_receiver d] else []))%list.
Proof.
  unfold ready_at. rewrite (wf_poller d wf). simpl.
  rewrite wf_inbox_unicast, wf_inbox_broadcast.
  destruct (arrived t (unicast_inbox w)), (arrived t (broadcast_inbox w));
    reflexivity.
Qed.

Lemma wf_unicast_in t w :
  socket_in (_unicast_receiver d) (ready_at t (_poller d) w)
  = arrived t (unicast_inbox w).
Proof.
  rewrite wf_ready_at. unfold socket_in.
  pose proof (wf_distinct d wf) as D. apply Nat.eqb_neq in D.
  rewrite Nat.eqb_sym in D.
  destruct (arrived t (unicast_inbox w)), (arrived t (broadcast_inbox w));
    simpl; rewrite ?Nat.eqb_refl, ?D; reflexivity.
Qed.

Lemma recv_unicast d' w t m q :
  unicast_inbox w = (t, m) :: q ->
  recv_pyobj (_unicast_receiver d) (d', w) =
  (Ret m, (d', with_unicast_inbox q (with_now (Z.max (now w) t) w))).
Proof.
  intros H. unfold recv_pyobj. step. rewrite wf_inbox_unicast, H. step.
  unfold with_inbox. now rewrite (wf_unicast_kind d wf), Z.eqb_refl.
Qed.

Lemma recv_broadcast d' w t m q :
  broadcast_inbox w = (t, m) :: q ->
  recv_pyobj (_broadcast_receiver d) (d', w) =
  (Ret m, (d', with_broadcast_inbox q (with_now (Z.max (now w) t) w))).
Proof.
  intros H. unfold recv_pyobj. step. rewrite wf_inbox_broadcast, H. step.
  unfold with_inbox. now rewrite (wf_broadcast_kind d wf).
Qed.

Lemma recv_broadcast_never d' w :
  broadcast_inbox w = [] ->
  recv_pyobj (_broadcast_receiver d) (d', w) = (Hang, (d', w)).
Proof.
  intros H. unfold recv_pyobj. step. now rewrite wf_inbox_broadcast, H.
Qed.
End Inbound.

(** A pass of the loop: the poll, then the read. *)
Lemma receive_pass_poll d w :
  receive_pass (d, w) =
  match poll (_receive_timeout d) (_poller d) (d, w) with
  | (Ret sockets, c1) =>
      if socket_in (_unicast_receiver d) sockets then
        (recv_message <- recv_pyobj (_unicast_receiver d) ;;
         debug ("Receive a message from " ++ source recv_message
                ++ " through unicast receiver.") ;;
         ret recv_message) c1
      else
        (recv_message <- recv_pyobj (_broadcast_receiver d) ;;
         debug ("Receive a message from " ++ source recv_message
                ++ " through broadcast receiver.") ;;
         ret recv_message) c1
  | (Exc e, c1) => (Exc (DriverReceiveError e), c1)
  | (Hang, c1) => (Hang, c1)
  end.
Proof.
  unfold receive_pass, bind at 1 2, get_self, try_except. simpl.
  destruct (poll _ _ (d, w)) as [[sockets|e|] c1]; try reflexivity.
  destruct (socket_in _ sockets); reflexivity.
Qed.

Lemma receive_pass_self c r c' : receive_pass c = (r, c') -> fst c' = fst c.
Proof.
  destruct c as [d w]. rewrite receive_pass_poll.
  destruct (poll _ _ (d, w)) as [[sockets|e|] c1] eqn:P;
    apply poll_inspect in P; destruct P as (P & _).
  - assert (G : forall s text,
      (recv_message <- recv_pyobj s ;;
       debug (text recv_message) ;; ret recv_message) c1 = (r, c') ->
      fst c' = fst (d, w)).
    { intros s text. unfold bind at 1.
      destruct (recv_pyobj s c1) as [[m|e|] c2] eqn:R;
        apply recv_pyobj_self in R; step; intros [= <- <-]; simpl in *; congruence. }
    destruct (socket_in _ sockets); intros H.
    + exact (G _ (fun m => "Receive a message from " ++ source m
                           ++ " through unicast receiver.") H).
    + exact (G _ (fun m => "Receive a message from " ++ source m
                           ++ " through broadcast receiver.") H).
  - intros [= <- <-]. auto.
  - intros [= <- <-]. auto.
Qed.

Lemma next_self is_continuous g c :
  fst (snd (next is_continuous g c)) = fst c.
Proof.
  assert (R : fst (snd (resume_pass c)) = fst c).
  { unfold resume_pass. destruct (receive_pass c) as [[m|e|] c'] eqn:E;
      apply receive_pass_self in E; exact E. }
  destruct g; simpl; auto. destruct is_continuous; simpl; auto.
Qed.

(** ** Construction and the reachable states *)

Lemma init_inspect protocol send_timeout receive_timeout c0 c :
  __init__ protocol send_timeout receive_timeout c0 = (Ret tt, c) ->
  wf_driver (fst c) /\ table c = []
  /\ _send_timeout (fst c) = send_timeout
  /\ _receive_timeout (fst c) = receive_timeout.
Proof.
  destruct c0 as [d0 w]. unfold __init__, _setup_sockets. step.
  destruct (host_ip w) as [ip|]; step; try discriminate.
  destruct (dict_get (protocol ++ "://*") (unbindable w)) eqn:U; step;
    try discriminate.
  destruct (free_ports w) as [|p1 [|p2 ports]]; step; rewrite ?U; step;
    try discriminate.
  intros [= <-]. unfold table. simpl. repeat split; simpl; auto; try discriminate.
  lia.
Qed.

Lemma wf_same_inbound d d' :
  inbound_of d' = inbound_of d -> wf_driver d -> wf_driver d'.
Proof.
  unfold inbound_of. intros [= E1 E2 E3] [H1 H2 H3 H4 H5 H6 H7].
  constructor; rewrite ?E1, ?E2, ?E3; auto.
Qed.

Lemma connect_entry_inbound p k a c r c' :
  connect_entry p k a c = (r, c') -> inbound_of (fst c') = inbound_of (fst c).
Proof.
  destruct c as [d w]. intros H.
  destruct (connect_entry_cases p k a d w)
    as [(e & U & E)|[(K & s & w' & r' & E & _)|(K & s & w' & r' & E & _)]];
    rewrite E in H; inversion H; subst; reflexivity.
Qed.

Lemma connect_inbound peers c r c' :
  connect peers c = (r, c') -> inbound_of (fst c') = inbound_of (fst c).
Proof.
  revert c r c'.
  assert (G : forall (c0 c : Config) r c',
    connect peers c = (r, c') ->
    inbound_of (fst c) = inbound_of (fst c0) ->
    inbound_of (fst c') = inbound_of (fst c0)).
  { intros c0. unfold connect.
    apply (for_each_invariant
             (fun c => inbound_of (fst c) = inbound_of (fst c0))).
    intros [p ad].
    apply (for_each_invariant
             (fun c => inbound_of (fst c) = inbound_of (fst c0))).
    intros [k a] c r c' H E. now rewrite (connect_entry_inbound _ _ _ _ _ _ H). }
  intros c r c' H. now apply (G c c r c').
Qed.

Lemma send_inbound m c : inbound_of (fst (snd (send m c))) = inbound_of (fst c).
Proof.
  destruct c as [d w].
  destruct (dict_get (destination m) (_unicast_sender_dict d)) as [s|] eqn:G.
  - destruct (write_fails_dec (d, w)) as [(text & r & Hw)|Hw]; simpl in Hw.
    + now rewrite (send_write_fails m d w s text r G Hw).
    + now rewrite (send_write_ok m d w s G Hw).
  - now rewrite (send_unknown m d w G).
Qed.

Lemma broadcast_inbound m c :
  inbound_of (fst (snd (broadcast m c))) = inbound_of (fst c).
Proof.
  destruct c as [d w].
  destruct (write_fails_dec (d, w)) as [(text & r & Hw)|Hw]; simpl in Hw.
  - now rewrite (broadcast_write_fails m d w text r Hw).
  - now rewrite (broadcast_write_ok m d w Hw).
Qed.

Lemma reachable_wf c : reachable c -> wf_driver (fst c).
Proof.
  induction 1 as [? ? ? c0 c H|c peers _ IH|c m _ IH|c m _ IH|c ic g _ IH].
  - now apply init_inspect in H.
  - destruct (connect peers c) as [r c'] eqn:E.
    apply wf_same_inbound with (fst c); auto.
    now apply connect_inbound in E.
  - apply wf_same_inbound with (fst c); auto. apply send_inbound.
  - apply wf_same_inbound with (fst c); auto. apply broadcast_inbound.
  - now rewrite next_self.
Qed.

Lemma reachable_NoDup c : reachable c -> NoDup (dict_keys (table c)).
Proof.
  induction 1 as [? ? ? c0 c H|c peers _ IH|c m _ IH|c m _ IH|c ic g _ IH].
  - apply init_inspect in H. destruct H as (_ & -> & _). constructor.
  - destruct (connect peers c) as [r c'] eqn:E. simpl.
    now apply (connect_NoDup peers c r c').
  - now apply send_NoDup.
  - now rewrite broadcast_table.
  - unfold table. now rewrite next_self.
Qed.

(** ** The properties *)

(** C8.  In every state a driver reaches by construction and calls of
    [connect], [send], [broadcast] and [receive], no peer name occurs twice
    in the Peer Connection Table: each name in it has exactly one outbound
    unicast socket, the one a lookup returns. *)
Theorem table_one_endpoint_per_peer c :
  reachable c ->
  NoDup (dict_keys (table c))
  /\ forall p, In p (dict_keys (table c)) ->
       exists s, dict_get p (table c) = Some s
                 /\ forall s', In (p, s') (table c) -> s' = s.
Proof.
  intros R. pose proof (reachable_NoDup c R) as N. split; auto.
  intros p Hp. apply dict_get_keys in Hp.
  destruct (dict_get p (table c)) as [s|] eqn:G; [|congruence].
  exists s. split; auto. intros s' Hs'.
  apply (NoDup_In_unique p s' s (table c)); auto. now apply dict_get_In.
Qed.

Lemma driver0_built :
  __init__ "tcp" 100 10 (blank, quiet_world) = (Ret tt, driver0).
Proof. vm_compute. reflexivity. Qed.

Lemma table_one_endpoint_per_peer_witness :
  reachable (snd (connect two_peers driver0))
  /\ NoDup (dict_keys (table (snd (connect two_peers driver0)))).
Proof.
  assert (R : reachable (snd (connect two_peers driver0))).
  { apply reach_connect. exact (reach_init _ _ _ _ _ driver0_built). }
  split; [exact R|].
  exact (proj1 (table_one_endpoint_per_peer _ R)).
Defined.

(** C3, as the code has it.  When [connect] returns, the names in the Peer
    Connection Table are those it held before the call and the peers that
    supplied an address of the unicast kind; a peer that supplied only a
    broadcast address gets no entry. *)
Theorem connect_registers_unicast_peers peers c c' :
  connect peers c = (Ret tt, c') ->
  forall q, In q (dict_keys (table c')) <->
            In q (dict_keys (table c)) \/ supplies_unicast peers q.
Proof. intros H q. now apply connect_keys. Qed.

Lemma connect_registers_unicast_peers_witness :
  connect two_peers driver0 = (Ret tt, snd (connect two_peers driver0))
  /\ forall q,
       In q (dict_keys (table (snd (connect two_peers driver0)))) <->
       In q (dict_keys (table driver0)) \/ supplies_unicast two_peers q.
Proof.
  split; [vm_compute; reflexivity|].
  apply (connect_registers_unicast_peers two_peers driver0).
  vm_compute. reflexivity.
Defined.

(** C3 fails as stated: a peer that supplies only a broadcast address is in
    the address map, [connect] returns, and the table has no entry for it. *)
Lemma connect_broadcast_only_peer_unregistered :
  exists c',
    connect two_peers driver0 = (Ret tt, c')
    /\ In "monitor" (map fst two_peers)
    /\ dict_get "monitor" (table c') = None
    /\ dict_keys (table c') = ["actor"].
Proof.
  eexists. split; [vm_compute; reflexivity|].
  split; [right; left; reflexivity|].
  split; vm_compute; reflexivity.
Qed.

Lemma supplies_unicast_last pre p ad :
  ~ In p (map fst pre) ->
  supplies_unicast (pre ++ [(p, ad)]) p <->
  exists k a, In (k, a) ad /\ py_int k = Some zmq.PULL.
Proof.
  intros Hn. unfold supplies_unicast. split.
  - intros (ad' & k & a & Hin & Hin' & K). apply in_app_or in Hin.
    destruct Hin as [Hin|[Heq|[]]].
    + exfalso. apply Hn. now apply (in_map fst) in Hin.
    + inversion Heq; subst. eauto.
  - intros (k & a & Hin & K). exists ad, k, a. split; auto.
    apply in_or_app. right. now left.
Qed.

(** C2, as the code has it.  When the entries before it were processed
    without error, an entry whose key is neither kind makes [connect] raise
    a PeersConnectionError that names the peer and wraps the cause: the
    SocketTypeError (or the ValueError of [int], for a key that is no
    number), which the handler of [connect] catches.  Nothing of the driver
    changes at that entry: the table is the one the earlier entries left, so
    the peer has an entry exactly when it had one before the call or one of
    its earlier entries was of the unicast kind. *)
Theorem connect_unrecognized_kind pre p ad1 k a ad2 post c c1 :
  connect (pre ++ [(p, ad1)]) c = (Ret tt, c1) ->
  py_int k <> Some zmq.PULL -> py_int k <> Some zmq.SUB ->
  connect (pre ++ (p, (ad1 ++ (k, a) :: ad2)%list) :: post) c =
    (Exc (PeersConnectionError p
            match py_int k with
            | Some _ => SocketTypeError k
            | None => ValueError k
            end), c1)
  /\ (~ In p (map fst pre) ->
      (In p (dict_keys (table c1)) <->
       In p (dict_keys (table c))
       \/ exists k' a', In (k', a') ad1 /\ py_int k' = Some zmq.PULL)).
Proof.
  intros H K1 K2. split.
  - rewrite (connect_split pre p ad1 k a ad2 post c c1 H).
    destruct c1 as [d1 w1].
    rewrite (connect_entry_unrecognized p k a d1 w1
               match py_int k with
               | Some _ => SocketTypeError k
               | None => ValueError k
               end); auto.
    unfold unrecognized. destruct (py_int k) as [t|]; auto.
    destruct (t =? zmq.PULL) eqn:E1; [apply Z.eqb_eq in E1; congruence|].
    destruct (t =? zmq.SUB) eqn:E2; [apply Z.eqb_eq in E2; congruence|].
    reflexivity.
  - intros Hn. rewrite (connect_keys _ _ _ H p).
    now rewrite (supplies_unicast_last pre p ad1 Hn).
Qed.

Lemma connect_unrecognized_kind_witness :
  exists c1,
    connect ([] ++ [("actor", [(KInt zmq.PULL, "tcp://10.0.0.2:5000")])])
      driver0 = (Ret tt, c1)
    /\ connect [("actor", [(KInt zmq.PULL, "tcp://10.0.0.2:5000");
                           (KInt 99, "tcp://10.0.0.2:7000")]);
                ("monitor", [(KInt zmq.SUB, "tcp://10.0.0.3:6000")])]
         driver0
       = (Exc (PeersConnectionError "actor" (SocketTypeError (KInt 99))), c1).
Proof.
  eexists. split; [vm_compute; reflexivity|].
  refine (proj1 (connect_unrecognized_kind []
            "actor" [(KInt zmq.PULL, "tcp://10.0.0.2:5000")]
            (KInt 99) "tcp://10.0.0.2:7000" []
            [("monitor", [(KInt zmq.SUB, "tcp://10.0.0.3:6000")])]
            driver0 _ _ _ _)).
  - vm_compute. reflexivity.
  - discriminate.
  - discriminate.
Defined.

(** C2 fails as stated: for a key that is neither kind the caller gets a
    PeersConnectionError, not a SocketTypeError, and the peer's unicast
    socket, registered by its earlier entry, is in the table. *)
Lemma connect_unrecognized_kind_not_SocketTypeError :
  let peers := [("actor", [(KInt zmq.PULL, "tcp://10.0.0.2:5000");
                           (KInt 99, "tcp://10.0.0.2:7000")])] in
  unrecognized (KInt 99) = Some (SocketTypeError (KInt 99))
  /\ dict_get "actor" (table driver0) = None
  /\ (exists c',
        connect peers driver0 =
          (Exc (PeersConnectionError "actor" (SocketTypeError (KInt 99))), c')
        /\ dict_get "actor" (table c') <> None)
  /\ ~ (exists k c',
          connect peers driver0 = (Exc (SocketTypeError k), c')
          /\ dict_get "actor" (table c') = None).
Proof.
  split; [reflexivity|]. split; [vm_compute; reflexivity|]. split.
  - eexists. split; [vm_compute; reflexivity|]. vm_compute. discriminate.
  - intros (k & c' & H & _). vm_compute in H. discriminate.
Qed.

(** What one refused entry does to the driver. *)
Lemma connect_entry_refused p k a c text :
  py_int k = Some zmq.PULL \/ py_int k = Some zmq.SUB ->
  dict_get a (refused (snd c)) = Some text ->
  exists c2,
    connect_entry p k a c = (Exc (PeersConnectionError p (ZMQError text)), c2)
    /\ (forall q, q <> p -> dict_get q (table c2) = dict_get q (table c))
    /\ _broadcast_sender (fst c2) = _broadcast_sender (fst c)
    /\ log (snd c2) = log (snd c).
Proof.
  destruct c as [d w]. simpl. intros [K|K] Hr.
  - rewrite (connect_entry_unicast_refused p k a d w text K Hr).
    eexists. split; [reflexivity|]. unfold table. simpl. repeat split; auto.
    intros q Hq. now apply dict_get_set_neq.
  - rewrite (connect_entry_broadcast_refused p k a d w text K Hr).
    eexists. split; [reflexivity|]. repeat split; auto.
Qed.

(** C5.  When the transport refuses the address of an entry (of either
    kind) and the entries before it were processed without error, [connect]
    raises a PeersConnectionError that names the peer and wraps the
    transport's error.  The call stops there: it does what the call on the
    input cut after that entry does, whatever follows.  The sockets of the
    other peers and the connections of the broadcast sender are as the
    earlier entries left them. *)
Theorem connect_failure_aborts pre p ad1 k a ad2 post c c1 text :
  connect (pre ++ [(p, ad1)]) c = (Ret tt, c1) ->
  py_int k = Some zmq.PULL \/ py_int k = Some zmq.SUB ->
  dict_get a (refused (snd c)) = Some text ->
  exists c2,
    connect (pre ++ (p, (ad1 ++ (k, a) :: ad2)%list) :: post) c =
      (Exc (PeersConnectionError p (ZMQError text)), c2)
    /\ connect (pre ++ [(p, (ad1 ++ [(k, a)])%list)]) c =
      (Exc (PeersConnectionError p (ZMQError text)), c2)
    /\ (forall q, q <> p -> dict_get q (table c2) = dict_get q (table c1))
    /\ _broadcast_sender (fst c2) = _broadcast_sender (fst c1)
    /\ log (snd c2) = log (snd c1).
Proof.
  intros H K Hr.
  rewrite <- (connect_refused_same _ _ _ _ H) in Hr.
  destruct (connect_entry_refused p k a c1 text K Hr) as (c2 & E & T & B & L).
  exists c2.
  rewrite (connect_split pre p ad1 k a ad2 post c c1 H).
  rewrite (connect_split pre p ad1 k a [] [] c c1 H).
  rewrite E. auto.
Qed.

Lemma connect_failure_aborts_witness :
  exists c2,
    connect [("actor", [(KStr "7" (Some 7), "tcp://10.0.0.2:5000");
                        (KStr "2" (Some 2), "tcp://10.0.0.2:6000")]);
             ("monitor", [(KInt zmq.SUB, "tcp://");
                          (KInt zmq.PULL, "tcp://10.0.0.3:5000")]);
             ("learner", [(KInt zmq.PULL, "tcp://10.0.0.4:5000")])]
      driver0
    = (Exc (PeersConnectionError "monitor" (ZMQError "Invalid argument")), c2)
    /\ dict_get "actor" (table c2)
       = dict_get "actor" (table (snd (connect two_peers driver0)))
    /\ dict_keys (table c2) = ["actor"].
Proof.
  destruct (connect_failure_aborts
              [("actor", [(KStr "7" (Some 7), "tcp://10.0.0.2:5000");
                          (KStr "2" (Some 2), "tcp://10.0.0.2:6000")])]
              "monitor" [] (KInt zmq.SUB) "tcp://"
              [(KInt zmq.PULL, "tcp://10.0.0.3:5000")]
              [("learner", [(KInt zmq.PULL, "tcp://10.0.0.4:5000")])]
              driver0
              (snd (connect
                      ([("actor", [(KStr "7" (Some 7), "tcp://10.0.0.2:5000");
                                   (KStr "2" (Some 2), "tcp://10.0.0.2:6000")])]
                       ++ [("monitor", [])]) driver0))
              "Invalid argument")
    as (c2 & E & _ & T & _).
  - vm_compute. reflexivity.
  - right. reflexivity.
  - vm_compute. reflexivity.
  - exists c2. split; [exact E|].
    vm_compute in E. injection E as <-. split; vm_compute; reflexivity.
Defined.

(** C9.  In [connect], a unicast entry puts a new socket in the table under
    the peer's name and sets its send timeout before it connects it.  When
    the transport then refuses the address, [connect] raises its
    PeersConnectionError and the table holds, for that peer, the new socket:
    timeout set, connected to nothing. *)
Theorem connect_unicast_failure_leaves_entry pre p ad1 k a ad2 post c c1 text :
  connect (pre ++ [(p, ad1)]) c = (Ret tt, c1) ->
  py_int k = Some zmq.PULL ->
  dict_get a (refused (snd c)) = Some text ->
  exists c2,
    connect (pre ++ (p, (ad1 ++ (k, a) :: ad2)%list) :: post) c =
      (Exc (PeersConnectionError p (ZMQError text)), c2)
    /\ dict_get p (table c2)
       = Some (with_sndtimeo (_send_timeout (fst c1)) (fresh_push (snd c1)))
    /\ In p (dict_keys (table c2)).
Proof.
  intros H K Hr.
  rewrite <- (connect_refused_same _ _ _ _ H) in Hr.
  rewrite (connect_split pre p ad1 k a ad2 post c c1 H).
  destruct c1 as [d1 w1]. simpl in Hr.
  rewrite (connect_entry_unicast_refused p k a d1 w1 text K Hr).
  eexists. split; [reflexivity|]. unfold table. simpl.
  rewrite dict_get_keys, dict_get_set_eq. split; [reflexivity|discriminate].
Qed.

Lemma connect_unicast_failure_leaves_entry_witness :
  dict_get "actor" (table driver0) = None
  /\ exists c2,
       connect [("actor", [(KInt zmq.PULL, "tcp://")])] driver0
       = (Exc (PeersConnectionError "actor" (ZMQError "Invalid argument")), c2)
       /\ dict_get "actor" (table c2)
          = Some {| sock_id := 3; sock_kind := zmq.PUSH; sndtimeo := 100;
                    subscribed := []; bound := []; connected := [];
                    sent := [] |}.
Proof.
  split; [vm_compute; reflexivity|].
  destruct (connect_unicast_failure_leaves_entry
              [] "actor" [] (KInt zmq.PULL) "tcp://" [] [] driver0 driver0
              "Invalid argument")
    as (c2 & E & T & _).
  - vm_compute. reflexivity.
  - reflexivity.
  - vm_compute. reflexivity.
  - exists c2. split; [exact E|]. rewrite T. vm_compute. reflexivity.
Defined.

(** C4.  [send] and [broadcast] never raise.  When the destination is not
    in the table, or the write fails (a timeout is such a failure), [send]
    returns a DriverSendError, as a value; [broadcast] does so when its
    write fails. *)
Theorem send_error_is_returned m c :
  (dict_get (destination m) (table c) = None \/ write_fails c ->
   exists e c', send m c = (Ret (Some (DriverSendError e)), c'))
  /\ (write_fails c ->
      exists e c', broadcast m c = (Ret (Some (DriverSendError e)), c'))
  /\ (exists v c', send m c = (Ret v, c'))
  /\ (exists v c', broadcast m c = (Ret v, c')).
Proof.
  destruct c as [d w]. unfold table. simpl.
  assert (S1 : dict_get (destination m) (_unicast_sender_dict d) = None
               \/ write_fails (d, w) ->
               exists e c', send m (d, w) = (Ret (Some (DriverSendError e)), c')).
  { destruct (dict_get (destination m) (_unicast_sender_dict d)) as [s|] eqn:G.
    - intros [?|(text & r & Hw)]; [discriminate|]. simpl in Hw.
      rewrite (send_write_fails m d w s text r G Hw). eauto.
    - intros _. rewrite (send_unknown m d w G). eauto. }
  assert (B1 : write_fails (d, w) ->
               exists e c', broadcast m (d, w)
                            = (Ret (Some (DriverSendError e)), c')).
  { intros (text & r & Hw). simpl in Hw.
    rewrite (broadcast_write_fails m d w text r Hw). eauto. }
  repeat split; auto.
  - destruct (dict_get (destination m) (_unicast_sender_dict d)) as [s|] eqn:G.
    + destruct (write_fails_dec (d, w)) as [F|Hw].
      * destruct S1 as (e & c' & E); eauto.
      * simpl in Hw. rewrite (send_write_ok m d w s G Hw). eauto.
    + destruct S1 as (e & c' & E); eauto.
  - destruct (write_fails_dec (d, w)) as [F|Hw].
    + destruct (B1 F) as (e & c' & E); eauto.
    + simpl in Hw. rewrite (broadcast_write_ok m d w Hw). eauto.
Qed.

Lemma send_error_is_returned_witness :
  (exists e c', send hello driver0 = (Ret (Some (DriverSendError e)), c'))
  /\ (exists e c', send hello congested = (Ret (Some (DriverSendError e)), c'))
  /\ (exists e c', broadcast news congested
                   = (Ret (Some (DriverSendError e)), c')).
Proof.
  split; [|split].
  - apply (proj1 (send_error_is_returned hello driver0)).
    left. vm_compute. reflexivity.
  - apply (proj1 (send_error_is_returned hello congested)).
    right. eexists. eexists. vm_compute. reflexivity.
  - apply (proj1 (proj2 (send_error_is_returned news congested))).
    eexists. eexists. vm_compute. reflexivity.
Defined.

(** C10.  When the write succeeds (for [send]: the destination is in the
    table and its socket takes the message; for [broadcast]: the broadcast
    sender takes it), [send] and [broadcast] return [None].  A value other
    than [None] that either returns is a DriverSendError. *)
Theorem send_returns_None_or_error m c :
  (forall s, dict_get (destination m) (table c) = Some s ->
             ~ write_fails c ->
             exists c', send m c = (Ret None, c')
                        /\ dict_get (destination m) (table c')
                           = Some (with_sent (sent s ++ [m]) s))
  /\ (~ write_fails c ->
      exists c', broadcast m c = (Ret None, c')
                 /\ sent (_broadcast_sender (fst c'))
                    = (sent (_broadcast_sender (fst c)) ++ [m])%list)
  /\ (forall v c', send m c = (Ret (Some v), c') ->
                   exists e, v = DriverSendError e)
  /\ (forall v c', broadcast m c = (Ret (Some v), c') ->
                   exists e, v = DriverSendError e).
Proof.
  destruct c as [d w]. unfold table. simpl. repeat split.
  - intros s G F. destruct (write_fails_dec (d, w)) as [F'|Hw]; [contradiction|].
    simpl in Hw. rewrite (send_write_ok m d w s G Hw).
    eexists. split; [reflexivity|]. simpl. apply dict_get_set_eq.
  - intros F. destruct (write_fails_dec (d, w)) as [F'|Hw]; [contradiction|].
    simpl in Hw. rewrite (broadcast_write_ok m d w Hw).
    eexists. split; reflexivity.
  - intros v c'.
    destruct (dict_get (destination m) (_unicast_sender_dict d)) as [s|] eqn:G.
    + destruct (write_fails_dec (d, w)) as [(text & r & Hw)|Hw]; simpl in Hw.
      * rewrite (send_write_fails m d w s text r G Hw). intros [= <- _]. eauto.
      * rewrite (send_write_ok m d w s G Hw). discriminate.
    + rewrite (send_unknown m d w G). intros [= <- _]. eauto.
  - intros v c'.
    destruct (write_fails_dec (d, w)) as [(text & r & Hw)|Hw]; simpl in Hw.
    + rewrite (broadcast_write_fails m d w text r Hw). intros [= <- _]. eauto.
    + rewrite (broadcast_write_ok m d w Hw). discriminate.
Qed.

Lemma send_returns_None_or_error_witness :
  (exists c', send hello (snd (connect two_peers driver0)) = (Ret None, c')
              /\ option_map sent (dict_get "actor" (table c')) = Some [hello])
  /\ (exists c', broadcast news driver0 = (Ret None, c')
                 /\ sent (_broadcast_sender (fst c')) = [news])
  /\ exists e, DriverSendError (KeyError "actor") = DriverSendError e.
Proof.
  pose proof (send_returns_None_or_error hello
                (snd (connect two_peers driver0))) as (S1 & _).
  pose proof (send_returns_None_or_error news driver0) as (_ & B1 & _).
  pose proof (send_returns_None_or_error hello driver0) as (_ & _ & S2 & _).
  split; [|split].
  - destruct (S1 {| sock_id := 3; sock_kind := zmq.PUSH; sndtimeo := 100;
                    subscribed := []; bound := [];
                    connected := ["tcp://10.0.0.2:5000"]; sent := [] |})
      as (c' & E & T).
    + vm_compute. reflexivity.
    + intros (text & r & Hw). vm_compute in Hw. discriminate.
    + exists c'. split; [exact E|].
      change (destination hello) with "actor" in T. rewrite T. reflexivity.
  - destruct B1 as (c' & E & T).
    + intros (text & r & Hw). vm_compute in Hw. discriminate.
    + exists c'. split; [exact E|]. rewrite T. vm_compute. reflexivity.
  - apply (S2 _ driver0). vm_compute. reflexivity.
Defined.

Lemma arrived_head t q :
  arrived t q = true -> exists a m r, q = (a, m) :: r /\ a <= t.
Proof.
  destruct q as [|[a m] r]; simpl; [discriminate|].
  intros H. apply Z.leb_le in H. eauto.
Qed.

Lemma poll_immediate timeout reg d w :
  (forall text r, poll_script w <> Some text :: r) ->
  ready_at (now w) reg w <> [] ->
  poll timeout reg (d, w) =
  (Ret (ready_at (now w) reg w), (d, with_poll_script (tl (poll_script w)) w)).
Proof.
  intros Hs Hr. unfold poll. step.
  destruct (poll_script w) as [|[text|] r] eqn:E;
    try (now destruct (Hs text r));
    destruct (ready_at (now w) reg w); try reflexivity; congruence.
Qed.

(** A pass whose poll reports data, in full. *)
Lemma receive_pass_ready d w ready c1 :
  wf_driver d ->
  poll (_receive_timeout d) (_poller d) (d, w) = (Ret ready, c1) ->
  ready <> [] ->
  if socket_in (_unicast_receiver d) ready
  then exists t m q,
         unicast_inbox w = (t, m) :: q
         /\ receive_pass (d, w) =
            (Ret m,
             (d, with_log (log (snd c1) ++
                           ["Receive a message from " ++ source m
                            ++ " through unicast receiver."])
                   (with_unicast_inbox q
                      (with_now (Z.max (now (snd c1)) t) (snd c1)))))
  else exists t m q,
         broadcast_inbox w = (t, m) :: q
         /\ receive_pass (d, w) =
            (Ret m,
             (d, with_log (log (snd c1) ++
                           ["Receive a message from " ++ source m
                            ++ " through broadcast receiver."])
                   (with_broadcast_inbox q
                      (with_now (Z.max (now (snd c1)) t) (snd c1))))).
Proof.
  intros wf P Hne. rewrite receive_pass_poll, P.
  destruct (poll_inspect _ _ _ _ _ P) as (D & U & B & _ & R).
  destruct (R ready eq_refl) as [->|(t & ->)]; [congruence|].
  destruct c1 as [d1 w1]. simpl in D, U, B. subst d1.
  change (snd (d, w)) with w in *. rewrite (wf_unicast_in d wf).
  destruct (arrived t (unicast_inbox w)) eqn:A.
  - destruct (arrived_head _ _ A) as (a & m & q & E & _). cbv iota.
    exists a, m, q. rewrite E in U. unfold bind at 1.
    rewrite (recv_unicast d wf d w1 a m q U). step. auto.
  - rewrite (wf_ready_at d wf), A in Hne. simpl in Hne.
    destruct (arrived t (broadcast_inbox w)) eqn:A'; [|congruence].
    destruct (arrived_head _ _ A') as (a & m & q & E & _). cbv iota.
    exists a, m, q. rewrite E in B. unfold bind at 1.
    rewrite (recv_broadcast d wf d w1 a m q B). step. auto.
Qed.

(** C6.  In a pass of the loop of [receive] whose poll reports data: when
    the unicast receiver is among the ready sockets, whether or not the
    broadcast receiver is too, the message yielded is the first of the
    unicast inbox, which loses it, and the broadcast inbox is untouched;
    otherwise the message yielded is the first of the broadcast inbox. *)
Theorem receive_unicast_first d w ready c1 :
  wf_driver d ->
  poll (_receive_timeout d) (_poller d) (d, w) = (Ret ready, c1) ->
  ready <> [] ->
  if socket_in (_unicast_receiver d) ready
  then exists t m q c2,
         unicast_inbox w = (t, m) :: q
         /\ receive_pass (d, w) = (Ret m, c2)
         /\ unicast_inbox (snd c2) = q
         /\ broadcast_inbox (snd c2) = broadcast_inbox w
  else exists t m q c2,
         broadcast_inbox w = (t, m) :: q
         /\ receive_pass (d, w) = (Ret m, c2)
         /\ broadcast_inbox (snd c2) = q
         /\ unicast_inbox (snd c2) = unicast_inbox w.
Proof.
  intros wf P Hne.
  pose proof (receive_pass_ready d w ready c1 wf P Hne) as H.
  destruct (poll_inspect _ _ _ _ _ P) as (_ & U & B & _).
  destruct (socket_in (_unicast_receiver d) ready);
    destruct H as (t & m & q & E & ->); exists t, m, q; eexists;
    repeat split; auto.
Qed.

(** Both inboxes have a message at the same time: the unicast one first. *)
Lemma receive_unicast_first_witness :
  let c := with_traffic [(5, hello)] [(5, news)] driver0 in
  fst (fst (take 2 true Created c)) = [hello; news]
  /\ exists t m q c2,
       unicast_inbox (snd c) = (t, m) :: q
       /\ receive_pass c = (Ret m, c2)
       /\ unicast_inbox (snd c2) = q
       /\ broadcast_inbox (snd c2) = broadcast_inbox (snd c).
Proof.
  split; [vm_compute; reflexivity|].
  assert (wf : wf_driver (fst driver0)).
  { apply reachable_wf. exact (reach_init _ _ _ _ _ driver0_built). }
  exact (receive_unicast_first (fst driver0)
           (snd (with_traffic [(5, hello)] [(5, news)] driver0))
           [_unicast_receiver (fst driver0); _broadcast_receiver (fst driver0)]
           (fst driver0,
            with_now 5 (snd (with_traffic [(5, hello)] [(5, news)] driver0)))
           wf
           ltac:(vm_compute; reflexivity)
           ltac:(discriminate)).
Defined.

Lemma init_with_traffic u b :
  __init__ "tcp" 100 10
    (blank, with_broadcast_inbox b (with_unicast_inbox u quiet_world))
  = (Ret tt, with_traffic u b driver0).
Proof. vm_compute. reflexivity. Qed.

Lemma with_traffic_reachable u b : reachable (with_traffic u b driver0).
Proof. exact (reach_init _ _ _ _ _ (init_with_traffic u b)). Qed.

Lemma take_once n : forall g c,
  g <> Created ->
  fst (fst (take n false g c)) = [].
Proof.
  destruct n as [|n]; intros g c Hg; simpl; auto.
  destruct g; simpl; congruence.
Qed.

Lemma take_all_unicast d (wf : wf_driver d) m n : forall g w,
  g <> Finished ->
  poll_script w = [] ->
  unicast_inbox w = repeat (0, m) n ->
  0 <= now w ->
  fst (fst (take n true g (d, w))) = repeat m n.
Proof.
  induction n as [|n IH]; intros g w Hg Hs Hu Hn; [reflexivity|].
  assert (A : arrived (now w) (unicast_inbox w) = true).
  { rewrite Hu. simpl. now apply Z.leb_le. }
  assert (R : ready_at (now w) (_poller d) w <> []).
  { rewrite (wf_ready_at d wf), A. discriminate. }
  assert (P := poll_immediate (_receive_timeout d) (_poller d) d w
                 ltac:(rewrite Hs; discriminate) R).
  pose proof (receive_pass_ready d w _ _ wf P R) as H.
  rewrite (wf_unicast_in d wf), A in H.
  destruct H as (t & m' & q & E & H).
  rewrite Hu in E. simpl in E. injection E as <- <- <-.
  assert (N : next true g (d, w) = resume_pass (d, w)).
  { destruct g; try reflexivity. congruence. }
  change (take (S n) true g (d, w)) with
    (match next true g (d, w) with
     | (Yield m, g', c') =>
         let '(ms, r, c'') := take n true g' c' in (m :: ms, r, c'')
     | (r, _, c') => ([], Some r, c')
     end).
  rewrite N. unfold resume_pass. rewrite H.
  match goal with
  | |- context [take n true Suspended (d, ?w')] =>
      assert (IH' := IH Suspended w' ltac:(discriminate));
      destruct (take n true Suspended (d, w')) as [[ms r] c'']
  end.
  simpl. f_equal. apply IH'; simpl.
  - now rewrite Hs.
  - reflexivity.
  - lia.
Qed.

(** C7.  With [is_continuous] false the generator yields at most one
    message: resumed after its [yield] it stops, whatever is queued.  With
    [is_continuous] true it never stops of itself: resumed, it yields a
    message, waits, or ends by raising (then it is finished); and it yields
    as many messages as arrive, without bound. *)
Theorem receive_once_or_forever :
  (forall n c, (List.length (fst (fst (take n false Created c))) <= 1)%nat)
  /\ (forall c, next false Suspended c = (StopIteration, Finished, c))
  /\ (forall g c, g <> Finished ->
        fst (fst (next true g c)) <> StopIteration)
  /\ (forall g c e g' c', next true g c = (Raised e, g', c') ->
        g' = Finished)
  /\ (forall n, reachable (busy n)
                /\ fst (fst (take n true Created (busy n))) = repeat hello n).
Proof.
  repeat split.
  - intros [|n] c; simpl; [lia|].
    unfold resume_pass. destruct (receive_pass c) as [[m|e|] c']; simpl; try lia.
    pose proof (take_once n Suspended c' ltac:(discriminate)) as T.
    destruct (take n false Suspended c') as [[ms r] c'']. simpl in *.
    rewrite T. simpl. lia.
  - intros g c Hg.
    assert (N : next true g c = resume_pass c).
    { destruct g; try reflexivity. congruence. }
    rewrite N. unfold resume_pass.
    destruct (receive_pass c) as [[m|e|] c']; simpl; discriminate.
  - intros g c e g' c'. destruct g; simpl; unfold resume_pass;
      try discriminate;
      destruct (receive_pass c) as [[m|x|] c1]; intros [= _ <- _];
      reflexivity.
  - apply with_traffic_reachable.
  - unfold busy, with_traffic.
    apply take_all_unicast.
    + apply (reachable_wf driver0). exact (reach_init _ _ _ _ _ driver0_built).
    + discriminate.
    + reflexivity.
    + reflexivity.
    + vm_compute. discriminate.
Qed.

(** Three messages queued: one call in non-continuous mode gets the first
    and the generator stops; continuous mode gets all three. *)
Lemma receive_once_or_forever_witness :
  fst (take 5 false Created (busy 3)) = ([hello], Some StopIteration)
  /\ (List.length (fst (fst (take 5 false Created (busy 3)))) <= 1)%nat
  /\ fst (fst (take 3 true Created (busy 3))) = [hello; hello; hello]
  /\ fst (fst (next true Suspended (busy 3))) <> StopIteration.
Proof.
  destruct receive_once_or_forever as (Once & _ & Forever & _ & Unbounded).
  split; [vm_compute; reflexivity|]. split; [apply Once|].
  split; [exact (proj2 (Unbounded 3%nat))|].
  apply Forever. discriminate.
Defined.

(** C1.  What the code does when the receive timeout elapses with no data:
    the poll returns no socket, the test on the unicast receiver fails, and
    the pass goes on to a blocking read of the broadcast receiver.  The poll
    is not tried again: with no broadcast traffic to come the pass never
    returns, whatever reaches the unicast receiver later; with broadcast
    traffic to come it waits for it, past the timeout, and yields it. *)
Theorem receive_timeout_reads_broadcast d w c1 :
  wf_driver d ->
  poll (_receive_timeout d) (_poller d) (d, w) = (Ret [], c1) ->
  (broadcast_inbox w = [] -> receive_pass (d, w) = (Hang, c1))
  /\ (forall t m q, broadcast_inbox w = (t, m) :: q ->
        exists c2, receive_pass (d, w) = (Ret m, c2)
                   /\ unicast_inbox (snd c2) = unicast_inbox w
                   /\ now (snd c2) = Z.max (now (snd c1)) t).
Proof.
  intros wf P. rewrite receive_pass_poll, P.
  destruct (poll_inspect _ _ _ _ _ P) as (D & U & B & _).
  destruct c1 as [d1 w1]. simpl in D, U, B. subst d1.
  change (socket_in (_unicast_receiver d) []) with false. cbv iota. split.
  - intros E. rewrite E in B. unfold bind at 1.
    now rewrite (recv_broadcast_never d wf d w1 B).
  - intros t m q E. rewrite E in B. unfold bind at 1.
    rewrite (recv_broadcast d wf d w1 t m q B). step.
    eexists. repeat split; auto.
Qed.

(** Receive timeout 10 ms; a unicast message arrives at 50 ms and nothing is
    ever broadcast: the message is never yielded. *)
Lemma receive_timeout_reads_broadcast_witness :
  fst (poll 10 (_poller (fst driver0)) (fst driver0, late_unicast)) = Ret []
  /\ now (snd (snd (poll 10 (_poller (fst driver0))
                      (fst driver0, late_unicast)))) = 10
  /\ fst (receive_pass (fst driver0, late_unicast)) = Hang
  /\ fst (take 3 true Created (fst driver0, late_unicast))
     = ([], Some Blocked)
  /\ fst (take 3 true Created
            (with_traffic [(50, hello)] [(1000, news)] driver0))
     = ([news; hello], Some Blocked).
Proof.
  split; [vm_compute; reflexivity|]. split; [vm_compute; reflexivity|].
  split; [|split; vm_compute; reflexivity].
  assert (wf : wf_driver (fst driver0)).
  { apply reachable_wf. exact (reach_init _ _ _ _ _ driver0_built). }
  destruct (receive_timeout_reads_broadcast (fst driver0) late_unicast
              (snd (poll 10 (_poller (fst driver0))
                      (fst driver0, late_unicast))) wf) as [H _].
  - vm_compute. reflexivity.
  - rewrite H; [reflexivity|]. vm_compute. reflexivity.
Defined.

(** ** Further properties of [connect] *)

(** The outcome of an entry, in full. *)
Lemma connect_entry_form p k a d w :
  (exists e,
     connect_entry p k a (d, w) = (Exc (PeersConnectionError p e), (d, w))
     /\ (unrecognized k = Some e
         \/ (py_int k = Some zmq.SUB
             /\ exists text, dict_get a (refused w) = Some text
                             /\ e = ZMQError text)))
  \/ (py_int k = Some zmq.PULL
      /\ exists text,
           dict_get a (refused w) = Some text
           /\ connect_entry p k a (d, w) =
              (Exc (PeersConnectionError p (ZMQError text)),
               (with_unicast_sender_dict
                  (dict_set p (with_sndtimeo (_send_timeout d) (fresh_push w))
                            (_unicast_sender_dict d)) d,
                with_sockets_made (S (sockets_made w)) w)))
  \/ (py_int k = Some zmq.PULL
      /\ dict_get a (refused w) = None
      /\ connect_entry p k a (d, w) =
         (Ret tt,
          (with_unicast_sender_dict
             (dict_set p (with_connected [a]
                            (with_sndtimeo (_send_timeout d) (fresh_push w)))
                       (_unicast_sender_dict d)) d,
           with_log (log w ++ ["Connects to " ++ p ++ " via unicasting."])
                    (with_sockets_made (S (sockets_made w)) w))))
  \/ (py_int k = Some zmq.SUB
      /\ dict_get a (refused w) = None
      /\ connect_entry p k a (d, w) =
         (Ret tt,
          (with_broadcast_sender
             (with_connected (connected (_broadcast_sender d) ++ [a])
                             (_broadcast_sender d)) d,
           with_log (log w ++ ["Connects to " ++ p ++ " via broadcasting."])
                    w))).
Proof.
  destruct (unrecognized k) as [e|] eqn:U.
  - left. exists e. split; auto. now apply connect_entry_unrecognized.
  - unfold unrecognized in U.
    destruct (py_int k) as [t|] eqn:H; [|discriminate].
    destruct (t =? zmq.PULL) eqn:E1.
    + apply Z.eqb_eq in E1; subst t.
      destruct (dict_get a (refused w)) as [text|] eqn:Hr.
      * right. left. split; auto. exists text. split; auto.
        now apply connect_entry_unicast_refused.
      * right. right. left. repeat split; auto.
        now apply connect_entry_unicast_ok.
    + destruct (t =? zmq.SUB) eqn:E2; [|discriminate].
      apply Z.eqb_eq in E2; subst t.
      destruct (dict_get a (refused w)) as [text|] eqn:Hr.
      * left. exists (ZMQError text). split.
        -- now apply connect_entry_broadcast_refused.
        -- right. split; auto. eauto.
      * right. right. right. repeat split; auto.
        now apply connect_entry_broadcast_ok.
Qed.

(** An entry processed without error is an accepted one. *)
Lemma connect_entry_returns p k a c c' :
  connect_entry p k a c = (Ret tt, c') -> entry_accepted (snd c) (k, a).
Proof.
  destruct c as [d w]. unfold entry_accepted. simpl.
  destruct (connect_entry_form p k a d w)
    as [(e & E & _)|[(K & text & R & E)|[(K & R & E)|(K & R & E)]]];
    rewrite E; intros H; try discriminate; auto.
Qed.

Lemma connect_peer_refused_same p ad c r c' :
  connect_peer p ad c = (r, c') -> refused (snd c') = refused (snd c).
Proof.
  intros H.
  apply (connect_refused_same [(p, ad)] c r c').
  unfold connect. simpl. unfold connect_peer in H. unfold bind.
  rewrite H. destruct r as [[]|e|]; reflexivity.
Qed.

Lemma entry_accepted_same w w' e :
  refused w' = refused w -> entry_accepted w' e <-> entry_accepted w e.
Proof. unfold entry_accepted. now intros ->. Qed.

Lemma connect_peer_returns p ad : forall c c',
  connect_peer p ad c = (Ret tt, c') ->
  forall e, In e ad -> entry_accepted (snd c) e.
Proof.
  unfold connect_peer. induction ad as [|[k a] ad IH]; intros c c' H e Hin;
    [destruct Hin|].
  simpl in H. unfold bind in H.
  destruct (connect_entry p k a c) as [[[]|x|] c1] eqn:E; try discriminate.
  destruct Hin as [<-|Hin].
  - exact (connect_entry_returns _ _ _ _ _ E).
  - apply (entry_accepted_same (snd c) (snd c1) e
             (connect_entry_refused_same _ _ _ _ _ _ E)).
    exact (IH _ _ H e Hin).
Qed.

(** What [connect] raises names a peer of the map, and it never hangs. *)
Lemma connect_outcome peers : forall c r c',
  connect peers c = (r, c') ->
  r = Ret tt
  \/ exists p e, r = Exc (PeersConnectionError p e) /\ In p (map fst peers).
Proof.
  unfold connect. induction peers as [|[p ad] peers IH]; intros c r c' H;
    simpl in H.
  - unfold ret in H. inversion H. auto.
  - unfold bind in H.
    destruct (for_each ad _ c) as [[[]|e|] c1] eqn:E.
    + destruct (IH _ _ _ H) as [?|(q & e & ? & ?)]; auto.
      right. exists q, e. split; auto. now right.
    + inversion H; subst. right. clear IH H.
      revert c E. induction ad as [|[k a] ad IHad]; intros c E; simpl in E.
      * discriminate.
      * unfold bind in E.
        destruct (connect_entry p k a c) as [[[]|e0|] c2] eqn:E2.
        -- eauto.
        -- inversion E; subst. destruct c as [d w].
           destruct (connect_entry_form p k a d w)
             as [(e1 & F & _)|[(_ & text & _ & F)|[(_ & _ & F)|(_ & _ & F)]]];
             rewrite F in E2; inversion E2; subst.
           ++ exists p, e1. split; auto. now left.
           ++ exists p, (ZMQError text). split; auto. now left.
        -- discriminate.
    + exfalso. inversion H; subst. clear IH H.
      revert c E. induction ad as [|[k a] ad IHad]; intros c E; simpl in E.
      * discriminate.
      * unfold bind in E.
        destruct (connect_entry p k a c) as [[[]|e0|] c2] eqn:E2.
        -- eauto.
        -- discriminate.
        -- destruct c as [d w].
           destruct (connect_entry_form p k a d w)
             as [(e1 & F & _)|[(_ & text & _ & F)|[(_ & _ & F)|(_ & _ & F)]]];
             rewrite F in E2; discriminate.
Qed.

Lemma connect_returns_accepted peers : forall c c',
  connect peers c = (Ret tt, c') ->
  forall p ad e, In (p, ad) peers -> In e ad -> entry_accepted (snd c) e.
Proof.
  unfold connect. induction peers as [|[p0 ad0] peers IH];
    intros c c' H p ad e Hin He; [destruct Hin|].
  simpl in H. unfold bind in H.
  destruct (for_each ad0 _ c) as [[[]|x|] c1] eqn:E; try discriminate.
  fold (connect_peer p0 ad0 c) in E.
  destruct Hin as [Heq|Hin].
  - inversion Heq; subst. exact (connect_peer_returns _ _ _ _ E e He).
  - apply (entry_accepted_same (snd c) (snd c1) e
             (connect_peer_refused_same _ _ _ _ _ E)).
    exact (IH _ _ H p ad e Hin He).
Qed.

(** X3.  When [connect] returns, every entry of every peer had a key for
    which [int] gives [zmq.PULL] or [zmq.SUB] and an address the transport
    accepts.  A map with any other entry makes [connect] raise, and what
    [connect] raises is a PeersConnectionError that names a peer of the
    map: it raises nothing else. *)
Theorem connect_returns_only_accepted peers c :
  (forall c', connect peers c = (Ret tt, c') ->
     forall p ad e, In (p, ad) peers -> In e ad -> entry_accepted (snd c) e)
  /\ (forall r c', connect peers c = (r, c') ->
        r = Ret tt
        \/ exists p e, r = Exc (PeersConnectionError p e)
                       /\ In p (map fst peers))
  /\ (forall p ad e, In (p, ad) peers -> In e ad ->
        ~ entry_accepted (snd c) e ->
        exists q x c',
          connect peers c = (Exc (PeersConnectionError q x), c')
          /\ In q (map fst peers)).
Proof.
  split; [apply connect_returns_accepted|].
  split; [intros r c'; apply connect_outcome|].
  intros p ad e Hin He N.
  destruct (connect peers c) as [r c'] eqn:E.
  destruct (connect_outcome _ _ _ _ E) as [->|(q & x & -> & Hq)].
  - destruct N. exact (connect_returns_accepted _ _ _ E p ad e Hin He).
  - eauto.
Qed.

Lemma connect_returns_only_accepted_witness :
  entry_accepted (snd driver0) (KStr "7" (Some 7), "tcp://10.0.0.2:5000")
  /\ exists q x c',
       connect [("actor", [(KStr "seven" None, "tcp://10.0.0.2:5000")])]
         driver0
       = (Exc (PeersConnectionError q x), c')
       /\ In q ["actor"].
Proof.
  destruct (connect_returns_only_accepted two_peers driver0) as (A & _).
  destruct (connect_returns_only_accepted
              [("actor", [(KStr "seven" None, "tcp://10.0.0.2:5000")])]
              driver0) as (_ & _ & B).
  split.
  - apply (A (snd (connect two_peers driver0))
             ltac:(vm_compute; reflexivity) "actor"
             [(KStr "7" (Some 7), "tcp://10.0.0.2:5000");
              (KStr "2" (Some 2), "tcp://10.0.0.2:6000")]).
    + left. reflexivity.
    + left. reflexivity.
  - apply (B "actor" [(KStr "seven" None, "tcp://10.0.0.2:5000")]
             (KStr "seven" None, "tcp://10.0.0.2:5000")).
    + left. reflexivity.
    + left. reflexivity.
    + intros [[K|K] _]; discriminate.
Defined.

Lemma connect_entry_broadcast_sender p k a c c' :
  connect_entry p k a c = (Ret tt, c') ->
  _broadcast_sender (fst c') =
  with_connected
    (connected (_broadcast_sender (fst c)) ++ broadcast_entries [(k, a)])
    (_broadcast_sender (fst c)).
Proof.
  destruct c as [d w]. unfold broadcast_entries. simpl.
  destruct (connect_entry_form p k a d w)
    as [(e & E & _)|[(K & text & R & E)|[(K & R & E)|(K & R & E)]]];
    rewrite E; intros H; inversion H; subst; simpl; rewrite K; simpl.
  - rewrite app_nil_r. now destruct (_broadcast_sender d).
  - reflexivity.
Qed.

Lemma broadcast_entries_app l1 l2 :
  broadcast_entries (l1 ++ l2)
  = (broadcast_entries l1 ++ broadcast_entries l2)%list.
Proof. unfold broadcast_entries. apply flat_map_app. Qed.

Lemma with_connected_twice l l' s :
  with_connected l' (with_connected l s) = with_connected l' s.
Proof. reflexivity. Qed.

Lemma connect_peer_broadcast_sender p ad : forall c c',
  connect_peer p ad c = (Ret tt, c') ->
  _broadcast_sender (fst c') =
  with_connected
    (connected (_broadcast_sender (fst c)) ++ broadcast_entries ad)
    (_broadcast_sender (fst c)).
Proof.
  unfold connect_peer. induction ad as [|[k a] ad IH]; intros c c' H;
    simpl in H.
  - unfold ret in H. inversion H; subst.
    change (broadcast_entries []) with (@nil string). rewrite app_nil_r.
    now destruct (_broadcast_sender (fst c')).
  - unfold bind in H.
    destruct (connect_entry p k a c) as [[[]|e|] c1] eqn:E; try discriminate.
    rewrite (IH _ _ H), (connect_entry_broadcast_sender _ _ _ _ _ E).
    change ((k, a) :: ad) with ([(k, a)] ++ ad)%list.
    rewrite broadcast_entries_app, with_connected_twice.
    change (connected (with_connected ?l ?s)) with l.
    now rewrite app_assoc.
Qed.

(** X4.  When [connect] returns, the broadcast sender has, after the
    connections it had, one connection for each address of the broadcast
    kind in the map, in the order of the map; its send timeout and what was
    written to it are as before. *)
Theorem connect_adds_subscribers peers : forall c c',
  connect peers c = (Ret tt, c') ->
  _broadcast_sender (fst c') =
  with_connected
    (connected (_broadcast_sender (fst c)) ++ broadcast_addresses peers)
    (_broadcast_sender (fst c)).
Proof.
  unfold connect. induction peers as [|[p ad] peers IH]; intros c c' H;
    simpl in H.
  - unfold ret in H. inversion H; subst.
    change (broadcast_addresses []) with (@nil string). rewrite app_nil_r.
    now destruct (_broadcast_sender (fst c')).
  - unfold bind in H.
    destruct (for_each ad _ c) as [[[]|e|] c1] eqn:E; try discriminate.
    rewrite (IH _ _ H), (connect_peer_broadcast_sender p ad _ _ E).
    rewrite with_connected_twice.
    change (connected (with_connected ?l ?s)) with l.
    unfold broadcast_addresses. simpl. now rewrite app_assoc.
Qed.

Lemma connect_adds_subscribers_witness :
  connected (_broadcast_sender (fst (snd (connect two_peers driver0))))
  = ["tcp://10.0.0.2:6000"; "tcp://10.0.0.3:6000"].
Proof.
  rewrite (connect_adds_subscribers two_peers driver0
             (snd (connect two_peers driver0)) ltac:(vm_compute; reflexivity)).
  vm_compute. reflexivity.
Defined.

(** X8.  [connect] on a map in two parts is [connect] on the first part
    and, when that returns, [connect] on the second: connecting the peers
    one call at a time or all in one call is the same. *)
Theorem connect_app l1 l2 c :
  connect (l1 ++ l2) c =
  match connect l1 c with
  | (Ret _, c1) => connect l2 c1
  | (Exc e, c1) => (Exc e, c1)
  | (Hang, c1) => (Hang, c1)
  end.
Proof. unfold connect. apply for_each_app. Qed.

(** What an entry never changes, and the count of sockets made. *)
Lemma connect_entry_frame p k a c r c' :
  connect_entry p k a c = (r, c') ->
  settings_of (fst c') = settings_of (fst c)
  /\ (sockets_made (snd c) <= sockets_made (snd c'))%nat.
Proof.
  destruct c as [d w].
  destruct (connect_entry_form p k a d w)
    as [(e & E & _)|[(K & text & R & E)|[(K & R & E)|(K & R & E)]]];
    rewrite E; intros H; inversion H; subst; simpl; split; auto.
Qed.

Lemma connect_peer_frame p ad c r c' :
  connect_peer p ad c = (r, c') ->
  settings_of (fst c') = settings_of (fst c)
  /\ (sockets_made (snd c) <= sockets_made (snd c'))%nat.
Proof.
  intros H. unfold connect_peer in H.
  refine (for_each_invariant
            (fun x => settings_of (fst x) = settings_of (fst c)
                      /\ (sockets_made (snd c) <= sockets_made (snd x))%nat)
            _ _ _ c r c' H _); [|auto].
  intros [k a] c1 r1 c2 E [S1 N1].
  destruct (connect_entry_frame _ _ _ _ _ _ E) as [S2 N2].
  split; [congruence|lia].
Qed.

Lemma connect_frame peers c r c' :
  connect peers c = (r, c') ->
  settings_of (fst c') = settings_of (fst c)
  /\ (sockets_made (snd c) <= sockets_made (snd c'))%nat.
Proof.
  intros H. unfold connect in H.
  refine (for_each_invariant
            (fun x => settings_of (fst x) = settings_of (fst c)
                      /\ (sockets_made (snd c) <= sockets_made (snd x))%nat)
            _ _ _ c r c' H _); [|auto].
  intros [p ad] c1 r1 c2 E [S1 N1].
  destruct (connect_peer_frame p ad _ _ _ E) as [S2 N2].
  split; [congruence|lia].
Qed.

Lemma settings_send_timeout d d' :
  settings_of d' = settings_of d -> _send_timeout d' = _send_timeout d.
Proof. unfold settings_of. now intros [= _ -> _ _ _]. Qed.

Lemma connect_entry_table_same p k a c r c' :
  py_int k <> Some zmq.PULL ->
  connect_entry p k a c = (r, c') -> table c' = table c.
Proof.
  destruct c as [d w]. intros K.
  destruct (connect_entry_form p k a d w)
    as [(e & E & _)|[(K' & text & R & E)|[(K' & R & E)|(K' & R & E)]]];
    rewrite E; intros H; inversion H; subst; auto; congruence.
Qed.

Lemma last_unicast_None_cons k a ad :
  last_unicast ((k, a) :: ad) = None ->
  py_int k <> Some zmq.PULL /\ last_unicast ad = None.
Proof.
  simpl. destruct (last_unicast ad); [discriminate|].
  destruct (py_int k) as [t|]; [|split; [discriminate|auto]].
  destruct (t =? zmq.PULL) eqn:E; [discriminate|].
  apply Z.eqb_neq in E. intros _. split; [congruence|auto].
Qed.

Lemma connect_peer_no_unicast p ad : forall c r c',
  last_unicast ad = None ->
  connect_peer p ad c = (r, c') -> table c' = table c.
Proof.
  unfold connect_peer. induction ad as [|[k a] ad IH]; intros c r c' L H;
    simpl in H.
  - unfold ret in H. now inversion H.
  - apply last_unicast_None_cons in L. destruct L as [K L].
    unfold bind in H.
    destruct (connect_entry p k a c) as [[[]|e|] c1] eqn:E.
    + rewrite (IH _ _ _ L H). exact (connect_entry_table_same _ _ _ _ _ _ K E).
    + inversion H; subst. exact (connect_entry_table_same _ _ _ _ _ _ K E).
    + inversion H; subst. exact (connect_entry_table_same _ _ _ _ _ _ K E).
Qed.

Lemma connected_sender_widen c0 c c' c1 a s :
  _send_timeout (fst c) = _send_timeout (fst c0) ->
  (sockets_made (snd c0) <= sockets_made (snd c))%nat ->
  (sockets_made (snd c') <= sockets_made (snd c1))%nat ->
  connected_sender c c' a s -> connected_sender c0 c1 a s.
Proof.
  unfold connected_sender. intros T N1 N2 (K & S & C & W & I).
  repeat split; auto; try congruence; lia.
Qed.

Lemma connect_peer_last_unicast p ad : forall c c' a,
  last_unicast ad = Some a ->
  connect_peer p ad c = (Ret tt, c') ->
  exists s, dict_get p (table c') = Some s /\ connected_sender c c' a s.
Proof.
  induction ad as [|[k b] ad IH]; intros c c' a L H; [discriminate|].
  unfold connect_peer in H. simpl in H. unfold bind in H.
  destruct (connect_entry p k b c) as [[[]|e|] c1] eqn:E; try discriminate.
  fold (connect_peer p ad c1) in H.
  destruct (connect_entry_frame _ _ _ _ _ _ E) as [S1 N1].
  destruct (connect_peer_frame _ _ _ _ _ H) as [S2 N2].
  apply settings_send_timeout in S1.
  simpl in L. destruct (last_unicast ad) as [b'|] eqn:L'.
  - inversion L; subst b'.
    destruct (IH c1 c' a eq_refl H) as (s & G & CS).
    exists s. split; auto.
    apply (connected_sender_widen c c1 c' c' a s); auto.
  - rewrite (connect_peer_no_unicast p ad c1 _ c' L' H).
    destruct (py_int k) as [t|] eqn:K; [|discriminate].
    destruct (t =? zmq.PULL) eqn:T; [|discriminate].
    apply Z.eqb_eq in T. subst t. inversion L; subst b.
    destruct c as [d w].
    destruct (dict_get a (refused w)) as [text|] eqn:R.
    + rewrite (connect_entry_unicast_refused p k a d w text K R) in E.
      discriminate.
    + rewrite (connect_entry_unicast_ok p k a d w K R) in E.
      inversion E; subst c1. unfold table. simpl.
      rewrite dict_get_set_eq. eexists. split; [reflexivity|].
      unfold connected_sender. simpl in *. repeat split; auto; lia.
Qed.

Lemma connect_peer_others p ad q : forall c r c',
  q <> p -> connect_peer p ad c = (r, c') ->
  dict_get q (table c') = dict_get q (table c).
Proof.
  intros c r c' Hq H. unfold connect_peer in H.
  refine (for_each_invariant
            (fun x => dict_get q (table x) = dict_get q (table c))
            _ _ _ c r c' H _); [|auto].
  intros [k a] c1 r1 c2 E I.
  now rewrite (connect_entry_others p k a c1 r1 c2 q E Hq).
Qed.

Lemma connect_untouched peers q : forall c r c',
  ~ In q (map fst peers) -> connect peers c = (r, c') ->
  dict_get q (table c') = dict_get q (table c).
Proof.
  unfold connect. induction peers as [|[p ad] peers IH]; intros c r c' Hn H;
    simpl in H.
  - unfold ret in H. now inversion H.
  - simpl in Hn. unfold bind in H.
    destruct (for_each ad _ c) as [[[]|e|] c1] eqn:E.
    + rewrite (IH c1 r c'); auto.
      apply (connect_peer_others p ad q c (Ret tt) c1); auto.
    + inversion H; subst. apply (connect_peer_others p ad q c (Exc e) c'); auto.
    + inversion H; subst. apply (connect_peer_others p ad q c Hang c'); auto.
Qed.

(** X5.  When [connect] returns, a peer of the map (peer names are the keys
    of a dict: no name twice) that supplied addresses of the unicast kind
    has in the table a socket made by this call: a PUSH socket with the
    driver's send timeout, connected to the last of these addresses and to
    nothing else, nothing written to it.  A socket the peer had before is
    replaced. *)
Theorem connect_last_unicast_wins peers : forall c c' p ad a,
  connect peers c = (Ret tt, c') ->
  NoDup (map fst peers) ->
  In (p, ad) peers ->
  last_unicast ad = Some a ->
  exists s, dict_get p (table c') = Some s /\ connected_sender c c' a s.
Proof.
  induction peers as [|[p0 ad0] peers IH]; intros c c' p ad a H N Hin L;
    [destruct Hin|].
  unfold connect in H. simpl in H. unfold bind in H.
  destruct (for_each ad0 _ c) as [[[]|e|] c1] eqn:E; try discriminate.
  fold (connect_peer p0 ad0 c) in E. fold (connect peers c1) in H.
  destruct (connect_peer_frame _ _ _ _ _ E) as [S1 N1].
  destruct (connect_frame _ _ _ _ H) as [S2 N2].
  apply settings_send_timeout in S1.
  inversion N as [|? ? Hn N']; subst.
  destruct Hin as [Heq|Hin].
  - inversion Heq; subst p0 ad0.
    destruct (connect_peer_last_unicast p ad c c1 a L E) as (s & G & CS).
    exists s. rewrite (connect_untouched peers p c1 _ c' Hn H). split; auto.
    apply (connected_sender_widen c c c1 c' a s); auto.
  - destruct (IH c1 c' p ad a H N' Hin L) as (s & G & CS).
    exists s. split; auto.
    apply (connected_sender_widen c c1 c' c' a s); auto.
Qed.

Lemma connect_last_unicast_wins_witness :
  exists s,
    dict_get "actor" (table (snd (connect moved_peer driver0))) = Some s
    /\ connected s = ["tcp://10.0.0.9:5000"] /\ sent s = [].
Proof.
  destruct (connect_last_unicast_wins moved_peer driver0
              (snd (connect moved_peer driver0)) "actor"
              [(KInt zmq.PULL, "tcp://10.0.0.2:5000");
               (KInt zmq.SUB, "tcp://10.0.0.2:6000");
               (KStr "7" (Some 7), "tcp://10.0.0.9:5000")]
              "tcp://10.0.0.9:5000")
    as (s & G & _ & _ & C & W & _).
  - vm_compute. reflexivity.
  - constructor; [intros []|constructor].
  - left. reflexivity.
  - vm_compute. reflexivity.
  - exists s. auto.
Defined.

(** ** Construction *)

(** X1.  When construction returns, the host's name was resolved, the
    transport could bind the protocol and had two free ports, and the
    driver is this: its [address] maps [zmq.PULL] and [zmq.SUB] to
    [protocol://ip:port], with the host's address and the ports the two
    receivers were bound to, in that order; its Peer Connection Table is
    empty; its broadcast sender is a PUB socket with the send timeout; its
    poller holds the two receivers.  When the host's name does not resolve,
    when the transport cannot bind the protocol, or when it has no port
    left for one of the two receivers, construction raises that error. *)
Theorem init_advertises_bound_ports protocol send_timeout receive_timeout d0 w :
  (forall c,
     __init__ protocol send_timeout receive_timeout (d0, w) = (Ret tt, c) ->
     exists ip p1 p2,
       host_ip w = Some ip
       /\ dict_get (protocol ++ "://*") (unbindable w) = None
       /\ free_ports w = p1 :: p2 :: free_ports (snd c)
       /\ _address (fst c) =
          [(zmq.PULL, protocol ++ "://" ++ ip ++ ":" ++ show_int p1);
           (zmq.SUB, protocol ++ "://" ++ ip ++ ":" ++ show_int p2)]
       /\ bound (_unicast_receiver (fst c))
          = [(protocol ++ "://*") ++ ":" ++ show_int p1]
       /\ bound (_broadcast_receiver (fst c))
          = [(protocol ++ "://*") ++ ":" ++ show_int p2]
       /\ table c = []
       /\ sock_kind (_broadcast_sender (fst c)) = zmq.PUB
       /\ sndtimeo (_broadcast_sender (fst c)) = send_timeout
       /\ _poller (fst c)
          = [_unicast_receiver (fst c); _broadcast_receiver (fst c)])
  /\ (host_ip w = None ->
      exists c,
        __init__ protocol send_timeout receive_timeout (d0, w)
        = (Exc gaierror, c))
  /\ (forall ip text,
        host_ip w = Some ip ->
        dict_get (protocol ++ "://*") (unbindable w) = Some text ->
        exists c,
          __init__ protocol send_timeout receive_timeout (d0, w)
          = (Exc (ZMQError text), c))
  /\ (forall ip,
        host_ip w = Some ip ->
        dict_get (protocol ++ "://*") (unbindable w) = None ->
        (List.length (free_ports w) < 2)%nat ->
        exists c,
          __init__ protocol send_timeout receive_timeout (d0, w)
          = (Exc (ZMQError "Could not bind socket to random port."), c)).
Proof.
  split; [|split; [|split]].
  - intros c. unfold __init__, _setup_sockets. step.
    destruct (host_ip w) as [ip|]; step; [|discriminate].
    destruct (dict_get (protocol ++ "://*") (unbindable w)) eqn:U; step;
      [discriminate|].
    destruct (free_ports w) as [|p1 [|p2 ports]]; step; rewrite ?U; step;
      try discriminate.
    intros [= <-]. exists ip, p1, p2. unfold table. simpl.
    repeat split; reflexivity.
  - intros H. unfold __init__. step. rewrite H. step. eexists. reflexivity.
  - intros ip text H U. unfold __init__, _setup_sockets. step. rewrite H.
    step. rewrite U. step. eexists. reflexivity.
  - intros ip H U L. unfold __init__, _setup_sockets. step. rewrite H. step.
    rewrite U. step.
    destruct (free_ports w) as [|p1 [|p2 ports]]; step; rewrite ?U; step.
    + eexists. reflexivity.
    + eexists. reflexivity.
    + simpl in L. lia.
Qed.

Lemma init_advertises_bound_ports_witness :
  (exists ip p1 p2,
     host_ip quiet_world = Some ip
     /\ free_ports quiet_world = p1 :: p2 :: free_ports (snd driver0)
     /\ _address (fst driver0)
        = [(zmq.PULL, "tcp" ++ "://" ++ ip ++ ":" ++ show_int p1);
           (zmq.SUB, "tcp" ++ "://" ++ ip ++ ":" ++ show_int p2)])
  /\ (exists c,
        __init__ "bogus" 100 10 (blank, quiet_world)
        = (Exc (ZMQError "Protocol not supported"), c))
  /\ (exists c,
        __init__ "tcp" 100 10
          (blank, with_free_ports [5001] quiet_world)
        = (Exc (ZMQError "Could not bind socket to random port."), c)).
Proof.
  destruct (init_advertises_bound_ports "tcp" 100 10 blank quiet_world)
    as (Ok & _).
  destruct (init_advertises_bound_ports "bogus" 100 10 blank quiet_world)
    as (_ & _ & Bogus & _).
  destruct (init_advertises_bound_ports "tcp" 100 10 blank
              (with_free_ports [5001] quiet_world)) as (_ & _ & _ & Ko).
  split; [|split].
  - destruct (Ok driver0 driver0_built) as (ip & p1 & p2 & H & _ & F & A & _).
    exists ip, p1, p2. auto.
  - apply (Bogus "10.0.0.1"); vm_compute; reflexivity.
  - apply (Ko "10.0.0.1"); [vm_compute; reflexivity..|simpl; lia].
Defined.

(** What construction leaves on the outbound side and in the counters. *)
Lemma init_outbound protocol send_timeout receive_timeout c0 c :
  __init__ protocol send_timeout receive_timeout c0 = (Ret tt, c) ->
  sock_kind (_broadcast_sender (fst c)) = zmq.PUB
  /\ sndtimeo (_broadcast_sender (fst c)) = send_timeout
  /\ socket_ids (fst c)
     = [sockets_made (snd c0); S (S (sockets_made (snd c0)));
        S (sockets_made (snd c0))]
  /\ sockets_made (snd c) = S (S (S (sockets_made (snd c0)))).
Proof.
  destruct c0 as [d0 w]. unfold __init__, _setup_sockets. step.
  destruct (host_ip w) as [ip|]; step; try discriminate.
  destruct (dict_get (protocol ++ "://*") (unbindable w)) eqn:U; step;
    try discriminate.
  destruct (free_ports w) as [|p1 [|p2 ports]]; step; rewrite ?U; step;
    try discriminate.
  intros [= <-]. simpl. repeat split; reflexivity.
Qed.

(** ** What the operations keep *)

Lemma send_form m d w :
  (send m (d, w) = (Ret (Some (DriverSendError (KeyError (destination m)))),
                    (d, w))
   /\ dict_get (destination m) (_unicast_sender_dict d) = None)
  \/ (exists s text r,
        dict_get (destination m) (_unicast_sender_dict d) = Some s
        /\ write_script w = Some text :: r
        /\ send m (d, w) = (Ret (Some (DriverSendError (ZMQError text))),
                            (d, with_write_script r w)))
  \/ (exists s,
        dict_get (destination m) (_unicast_sender_dict d) = Some s
        /\ (forall text r, write_script w <> Some text :: r)
        /\ send m (d, w) =
           (Ret None,
            (with_unicast_sender_dict
               (dict_set (destination m) (with_sent (sent s ++ [m]) s)
                         (_unicast_sender_dict d)) d,
             with_log (log w ++ ["Send a " ++ tag m ++ " message to "
                                 ++ destination m ++ "."])
                      (with_write_script (tl (write_script w)) w)))).
Proof.
  destruct (dict_get (destination m) (_unicast_sender_dict d)) as [s|] eqn:G.
  - destruct (write_fails_dec (d, w)) as [(text & r & Hw)|Hw]; simpl in Hw.
    + right. left. exists s, text, r. repeat split; auto.
      now apply send_write_fails with s.
    + right. right. exists s. repeat split; auto. now apply send_write_ok.
  - left. split; auto. now apply send_unknown.
Qed.

Lemma broadcast_form m d w :
  (exists text r,
     write_script w = Some text :: r
     /\ broadcast m (d, w) = (Ret (Some (DriverSendError (ZMQError text))),
                              (d, with_write_script r w)))
  \/ ((forall text r, write_script w <> Some text :: r)
      /\ broadcast m (d, w) =
         (Ret None,
          (with_broadcast_sender
             (with_sent (sent (_broadcast_sender d) ++ [m])
                        (_broadcast_sender d)) d,
           with_log (log w ++ ["Broadcast a " ++ tag m
                               ++ " message to all subscribers."])
                    (with_write_script (tl (write_script w)) w)))).
Proof.
  destruct (write_fails_dec (d, w)) as [(text & r & Hw)|Hw]; simpl in Hw.
  - left. exists text, r. split; auto. now apply broadcast_write_fails.
  - right. split; auto. now apply broadcast_write_ok.
Qed.

(** X2.  [connect], [send], [broadcast] and a resumption of [receive] never
    change what construction fixed: the protocol, the two timeouts, the host
    address, the advertised [address], the two receivers and the poller. *)
Theorem operations_keep_settings c :
  (forall peers,
     settings_of (fst (snd (connect peers c))) = settings_of (fst c)
     /\ inbound_of (fst (snd (connect peers c))) = inbound_of (fst c))
  /\ (forall m,
        settings_of (fst (snd (send m c))) = settings_of (fst c)
        /\ inbound_of (fst (snd (send m c))) = inbound_of (fst c))
  /\ (forall m,
        settings_of (fst (snd (broadcast m c))) = settings_of (fst c)
        /\ inbound_of (fst (snd (broadcast m c))) = inbound_of (fst c))
  /\ (forall is_continuous g,
        fst (snd (next is_continuous g c)) = fst c).
Proof.
  split; [|split; [|split]].
  - intros peers. destruct (connect peers c) as [r c'] eqn:E. split.
    + exact (proj1 (connect_frame _ _ _ _ E)).
    + exact (connect_inbound _ _ _ _ E).
  - intros m. split; [|apply send_inbound]. destruct c as [d w].
    destruct (send_form m d w)
      as [(E & _)|[(s & text & r & _ & _ & E)|(s & _ & _ & E)]];
      rewrite E; reflexivity.
  - intros m. split; [|apply broadcast_inbound]. destruct c as [d w].
    destruct (broadcast_form m d w) as [(text & r & _ & E)|(_ & E)];
      rewrite E; reflexivity.
  - intros ic g. apply next_self.
Qed.

(** ** The outbound sockets in the reachable states *)

Lemma sender_ok_settings d d' s :
  _send_timeout d' = _send_timeout d -> sender_ok d s -> sender_ok d' s.
Proof. unfold sender_ok. now intros ->. Qed.

Lemma connect_entry_outbound p k a c r c' :
  connect_entry p k a c = (r, c') ->
  outbound_ok (fst c) -> outbound_ok (fst c').
Proof.
  destruct c as [d w]. unfold outbound_ok. simpl.
  destruct (connect_entry_form p k a d w)
    as [(e & E & _)|[(K & text & R & E)|[(K & R & E)|(K & R & E)]]];
    rewrite E; intros H (T & B1 & B2); inversion H; subst; simpl; auto;
    (split; [|auto]); intros q s G; try exact (T q s G).
  - destruct (String.eqb q p) eqn:Q.
    + apply String.eqb_eq in Q. subst q. rewrite dict_get_set_eq in G.
      inversion G; subst. unfold sender_ok. simpl. repeat split; auto.
    + apply String.eqb_neq in Q. rewrite dict_get_set_neq in G by auto.
      exact (T q s G).
  - destruct (String.eqb q p) eqn:Q.
    + apply String.eqb_eq in Q. subst q. rewrite dict_get_set_eq in G.
      inversion G; subst. unfold sender_ok. simpl. repeat split; auto.
    + apply String.eqb_neq in Q. rewrite dict_get_set_neq in G by auto.
      exact (T q s G).
Qed.

Lemma connect_outbound peers c r c' :
  connect peers c = (r, c') -> outbound_ok (fst c) -> outbound_ok (fst c').
Proof.
  unfold connect.
  apply (for_each_invariant (fun x => outbound_ok (fst x))).
  intros [p ad].
  apply (for_each_invariant (fun x => outbound_ok (fst x))).
  intros [k a]. apply connect_entry_outbound.
Qed.

Lemma send_outbound m c :
  outbound_ok (fst c) -> outbound_ok (fst (snd (send m c))).
Proof.
  destruct c as [d w]. unfold outbound_ok. simpl.
  destruct (send_form m d w)
    as [(E & _)|[(s & text & r & _ & _ & E)|(s & G & _ & E)]];
    rewrite E; simpl; auto.
  intros (T & B1 & B2). split; [|auto]. intros q s' G'.
  destruct (String.eqb q (destination m)) eqn:Q.
  - apply String.eqb_eq in Q. subst q. rewrite dict_get_set_eq in G'.
    inversion G'; subst. exact (T _ _ G).
  - apply String.eqb_neq in Q. rewrite dict_get_set_neq in G' by auto.
    exact (T q s' G').
Qed.

Lemma broadcast_outbound m c :
  outbound_ok (fst c) -> outbound_ok (fst (snd (broadcast m c))).
Proof.
  destruct c as [d w]. unfold outbound_ok. simpl.
  destruct (broadcast_form m d w) as [(text & r & _ & E)|(_ & E)];
    rewrite E; simpl; auto.
Qed.

(** X6.  In every state a driver reaches, each socket of the Peer
    Connection Table is a PUSH socket with the driver's send timeout,
    connected to at most one address and bound to none, and the broadcast
    sender is a PUB socket with the same timeout. *)
Theorem reachable_outbound c :
  reachable c ->
  (forall p s, dict_get p (table c) = Some s ->
     sock_kind s = zmq.PUSH /\ sndtimeo s = _send_timeout (fst c)
     /\ (List.length (connected s) <= 1)%nat /\ bound s = [])
  /\ sock_kind (_broadcast_sender (fst c)) = zmq.PUB
  /\ sndtimeo (_broadcast_sender (fst c)) = _send_timeout (fst c).
Proof.
  intros R. change (outbound_ok (fst c)).
  induction R as [? ? ? c0 c H|c peers _ IH|c m _ IH|c m _ IH|c ic g _ IH].
  - destruct (init_inspect _ _ _ _ _ H) as (_ & T & S & _).
    destruct (init_outbound _ _ _ _ _ H) as (K & B & _).
    unfold outbound_ok. unfold table in T. rewrite T, S.
    split; [intros ? ? G; discriminate|auto].
  - destruct (connect peers c) as [r c'] eqn:E.
    exact (connect_outbound _ _ _ _ E IH).
  - now apply send_outbound.
  - now apply broadcast_outbound.
  - now rewrite next_self.
Qed.

Lemma reachable_outbound_witness :
  exists s,
    dict_get "actor" (table (snd (connect two_peers driver0))) = Some s
    /\ sock_kind s = zmq.PUSH /\ sndtimeo s = 100.
Proof.
  assert (R : reachable (snd (connect two_peers driver0))).
  { apply reach_connect. exact (reach_init _ _ _ _ _ driver0_built). }
  destruct (reachable_outbound _ R) as (T & _).
  eexists. split; [vm_compute; reflexivity|].
  destruct (T "actor" _ ltac:(vm_compute; reflexivity)) as (K & S & _).
  split; [exact K|]. rewrite S. vm_compute. reflexivity.
Defined.

(** ** The sockets of a driver are distinct *)

Lemma ids_dict_set_in (p : string) (s : Socket) d i :
  In i (map (fun e => sock_id (snd e)) (dict_set p s d)) ->
  i = sock_id s \/ In i (map (fun e : string * Socket => sock_id (snd e)) d).
Proof.
  induction d as [|[q t] d IH]; simpl.
  - intros [<-|[]]. now left.
  - destruct (String.eqb p q); simpl.
    + intros [<-|H]; auto.
    + intros [<-|H]; auto. destruct (IH H); auto.
Qed.

Lemma ids_dict_set_NoDup (p : string) (s : Socket) d :
  NoDup (map (fun e : string * Socket => sock_id (snd e)) d) ->
  ~ In (sock_id s) (map (fun e : string * Socket => sock_id (snd e)) d) ->
  NoDup (map (fun e => sock_id (snd e)) (dict_set p s d)).
Proof.
  induction d as [|[q t] d IH]; simpl; intros N F.
  - constructor; [intros []|constructor].
  - inversion N as [|? ? Hn N']; subst.
    destruct (String.eqb p q); simpl.
    + constructor; auto.
    + constructor; [|apply IH; auto].
      intros Hin. apply ids_dict_set_in in Hin. destruct Hin as [E|Hin]; auto.
Qed.

Lemma ids_dict_set_same (p : string) (s s' : Socket) d :
  dict_get p d = Some s -> sock_id s' = sock_id s ->
  map (fun e => sock_id (snd e)) (dict_set p s' d)
  = map (fun e : string * Socket => sock_id (snd e)) d.
Proof.
  intros G E. induction d as [|[q t] d IH]; simpl in *; [discriminate|].
  destruct (String.eqb p q); simpl.
  - inversion G; subst. now rewrite E.
  - now rewrite IH.
Qed.

(** A socket just made, put in the table. *)
Lemma ids_fresh_sender d w w' p s :
  ids_ok (d, w) ->
  sock_id s = sockets_made w ->
  sockets_made w' = S (sockets_made w) ->
  ids_ok (with_unicast_sender_dict
            (dict_set p s (_unicast_sender_dict d)) d, w').
Proof.
  unfold ids_ok, socket_ids. simpl. intros (N & B) I W.
  assert (F : forall i,
    In i (map (fun e => sock_id (snd e))
            (dict_set p s (_unicast_sender_dict d))) ->
    i = sockets_made w
    \/ In i (map (fun e => sock_id (snd e)) (_unicast_sender_dict d))).
  { intros i Hin. apply ids_dict_set_in in Hin. rewrite I in Hin. exact Hin. }
  inversion N as [|? ? N1 Na]; subst.
  inversion Na as [|? ? N2 Nb]; subst.
  inversion Nb as [|? ? N3 Nc]; subst.
  pose proof (B (sock_id (_unicast_receiver d)) ltac:(simpl; auto)) as B1.
  pose proof (B (sock_id (_broadcast_receiver d)) ltac:(simpl; auto)) as B2.
  pose proof (B (sock_id (_broadcast_sender d)) ltac:(simpl; auto)) as B3.
  split.
  - constructor; [|constructor; [|constructor]].
    + intros [?|[?|Hin]]; [apply N1; simpl; auto..|].
      destruct (F _ Hin) as [E|Hin']; [lia|apply N1; simpl; auto].
    + intros [?|Hin]; [apply N2; simpl; auto|].
      destruct (F _ Hin) as [E|Hin']; [lia|apply N2; simpl; auto].
    + intros Hin. destruct (F _ Hin) as [E|Hin']; [lia|apply N3; auto].
    + apply ids_dict_set_NoDup; auto. rewrite I. intros Hin.
      assert (sockets_made w < sockets_made w)%nat
        by (apply B; simpl; auto).
      lia.
  - intros i [?|[?|[?|Hin]]]; try lia.
    destruct (F _ Hin) as [->|Hin']; [lia|].
    assert (i < sockets_made w)%nat by (apply B; simpl; auto). lia.
Qed.

Lemma connect_entry_ids p k a c r c' :
  connect_entry p k a c = (r, c') -> ids_ok c -> ids_ok c'.
Proof.
  destruct c as [d w].
  destruct (connect_entry_form p k a d w)
    as [(e & E & _)|[(K & text & R & E)|[(K & R & E)|(K & R & E)]]];
    rewrite E; intros H J; inversion H; subst; auto.
  - now apply ids_fresh_sender with w.
  - now apply ids_fresh_sender with w.
Qed.

Lemma connect_ids peers c r c' :
  connect peers c = (r, c') -> ids_ok c -> ids_ok c'.
Proof.
  unfold connect. apply (for_each_invariant ids_ok).
  intros [p ad]. apply (for_each_invariant ids_ok).
  intros [k a]. apply connect_entry_ids.
Qed.

Lemma send_ids m c : ids_ok c -> ids_ok (snd (send m c)).
Proof.
  destruct c as [d w].
  destruct (send_form m d w)
    as [(E & _)|[(s & text & r & _ & _ & E)|(s & G & _ & E)]];
    rewrite E; auto.
  unfold ids_ok, socket_ids. simpl.
  now rewrite (ids_dict_set_same (destination m) s
                 (with_sent (sent s ++ [m]) s) _ G eq_refl).
Qed.

Lemma broadcast_ids m c : ids_ok c -> ids_ok (snd (broadcast m c)).
Proof.
  destruct c as [d w].
  destruct (broadcast_form m d w) as [(text & r & _ & E)|(_ & E)];
    rewrite E; auto.
Qed.

Lemma poll_sockets_made timeout reg c r c1 :
  poll timeout reg c = (r, c1) ->
  sockets_made (snd c1) = sockets_made (snd c).
Proof.
  destruct c as [d w]. unfold poll. step.
  destruct (poll_script w) as [|[text|] s];
    try (intros [= <- <-]; reflexivity);
    (destruct (ready_at (now w) reg w) as [|x l];
     [destruct (next_arrival reg w) as [t|];
      [destruct ((timeout <? 0) || (t <=? now w + timeout))
      |destruct (timeout <? 0)]; step|];
     intros [= <- <-]; reflexivity).
Qed.

Lemma recv_pyobj_sockets_made s c r c1 :
  recv_pyobj s c = (r, c1) ->
  sockets_made (snd c1) = sockets_made (snd c).
Proof.
  destruct c as [d w]. unfold recv_pyobj, with_inbox. step.
  destruct (inbox s w) as [|[t m] q]; intros [= <- <-]; [reflexivity|].
  simpl. destruct (sock_kind s =? zmq.PULL); [reflexivity|].
  destruct (sock_kind s =? zmq.SUB); reflexivity.
Qed.

Lemma receive_pass_sockets_made c r c' :
  receive_pass c = (r, c') ->
  sockets_made (snd c') = sockets_made (snd c).
Proof.
  destruct c as [d w]. rewrite receive_pass_poll.
  destruct (poll _ _ (d, w)) as [[sockets|e|] c1] eqn:P;
    apply poll_sockets_made in P.
  - assert (G : forall s text,
      (recv_message <- recv_pyobj s ;;
       debug (text recv_message) ;; ret recv_message) c1 = (r, c') ->
      sockets_made (snd c') = sockets_made (snd (d, w))).
    { intros s text. unfold bind at 1.
      destruct (recv_pyobj s c1) as [[m|e|] c2] eqn:R;
        apply recv_pyobj_sockets_made in R; step; intros [= <- <-];
        simpl in *; congruence. }
    destruct (socket_in _ sockets); intros H.
    + exact (G _ (fun m => "Receive a message from " ++ source m
                           ++ " through unicast receiver.") H).
    + exact (G _ (fun m => "Receive a message from " ++ source m
                           ++ " through broadcast receiver.") H).
  - intros [= <- <-]. auto.
  - intros [= <- <-]. auto.
Qed.

Lemma next_ids is_continuous g c : ids_ok c -> ids_ok (snd (next is_continuous g c)).
Proof.
  assert (R : ids_ok c -> ids_ok (snd (resume_pass c))).
  { unfold resume_pass, ids_ok.
    destruct (receive_pass c) as [[m|e|] c'] eqn:E;
      pose proof (receive_pass_self _ _ _ E) as D;
      pose proof (receive_pass_sockets_made _ _ _ E) as W;
      simpl; now rewrite D, W. }
  destruct g; simpl; auto. destruct is_continuous; simpl; auto.
Qed.

(** X7.  In every state a driver reaches, its sockets are pairwise distinct:
    the two receivers, the broadcast sender and the senders of the Peer
    Connection Table.  No two peers share a socket, and no sender is one of
    the driver's own three sockets. *)
Theorem reachable_sockets_distinct c :
  reachable c ->
  NoDup (socket_ids (fst c))
  /\ forall p q s t,
       dict_get p (table c) = Some s -> dict_get q (table c) = Some t ->
       p <> q -> sock_id s <> sock_id t.
Proof.
  intros R.
  assert (J : ids_ok c).
  { induction R as [? ? ? c0 c H|c peers _ IH|c m _ IH|c m _ IH|c ic g _ IH].
    - destruct (init_outbound _ _ _ _ _ H) as (_ & _ & I & W).
      unfold ids_ok. rewrite I, W. split.
      + repeat constructor; simpl; intuition lia.
      + simpl. intuition lia.
    - destruct (connect peers c) as [r c'] eqn:E.
      exact (connect_ids _ _ _ _ E IH).
    - now apply send_ids.
    - now apply broadcast_ids.
    - now apply next_ids. }
  destruct J as (N & _). split; auto.
  unfold socket_ids in N.
  inversion N as [|? ? _ Na]; subst. inversion Na as [|? ? _ Nb]; subst.
  inversion Nb as [|? ? _ Nc]; subst. clear N Na Nb.
  unfold table. induction (_unicast_sender_dict (fst c)) as [|[k v] d IH];
    intros p q s t Gp Gq Hne; simpl in *; [discriminate|].
  inversion Nc as [|? ? Hn Nd]; subst.
  assert (F : forall x y, dict_get x d = Some y ->
                          In (sock_id y) (map (fun e => sock_id (snd e)) d)).
  { intros x y G. apply dict_get_In in G.
    now apply (in_map (fun e : string * Socket => sock_id (snd e))) in G. }
  destruct (String.eqb p k) eqn:Ep, (String.eqb q k) eqn:Eq.
  - apply String.eqb_eq in Ep, Eq. congruence.
  - inversion Gp; subst. intros E. apply Hn. rewrite E. eauto.
  - inversion Gq; subst. intros E. apply Hn. rewrite <- E. eauto.
  - eauto.
Qed.

Lemma reachable_sockets_distinct_witness :
  NoDup (socket_ids (fst (snd (connect two_peers driver0)))).
Proof.
  assert (R : reachable (snd (connect two_peers driver0))).
  { apply reach_connect. exact (reach_init _ _ _ _ _ driver0_built). }
  exact (proj1 (reachable_sockets_distinct _ R)).
Defined.

(** ** Further properties of [send] and [broadcast] *)

Lemma dict_keys_set_present {V} (k : string) (v v' : V) d :
  dict_get k d = Some v -> dict_keys (dict_set k v' d) = dict_keys d.
Proof.
  unfold dict_keys. induction d as [|[q t] d IH]; simpl; [discriminate|].
  destruct (String.eqb k q) eqn:E; simpl.
  - apply String.eqb_eq in E. now subst.
  - intros G. now rewrite IH.
Qed.

(** The names in the table after [connect], whatever it returns or
    raises. *)
Lemma connect_keys_any peers : forall c r c' q,
  connect peers c = (r, c') ->
  In q (dict_keys (table c')) ->
  In q (dict_keys (table c)) \/ supplies_unicast peers q.
Proof.
  assert (P : forall p ad c r c' q,
    connect_peer p ad c = (r, c') ->
    In q (dict_keys (table c')) ->
    In q (dict_keys (table c))
    \/ (q = p /\ exists k a, In (k, a) ad /\ py_int k = Some zmq.PULL)).
  { intros p ad. unfold connect_peer.
    induction ad as [|[k a] ad IH]; intros c r c' q H Hin; simpl in H.
    - unfold ret in H. inversion H; subst. auto.
    - unfold bind in H.
      destruct (connect_entry p k a c) as [[[]|e|] c1] eqn:E.
      + destruct (IH _ _ _ _ H Hin) as [Hin'|(-> & k' & a' & I & K)].
        * apply (connect_entry_keys _ _ _ _ _ _ E) in Hin'.
          destruct Hin' as [?|[-> K]]; auto.
          right. split; auto. exists k, a. split; [now left|auto].
        * right. split; auto. exists k', a'. split; [now right|auto].
      + inversion H; subst.
        apply (connect_entry_keys _ _ _ _ _ _ E) in Hin.
        destruct Hin as [?|[-> K]]; auto.
        right. split; auto. exists k, a. split; [now left|auto].
      + inversion H; subst.
        apply (connect_entry_keys _ _ _ _ _ _ E) in Hin.
        destruct Hin as [?|[-> K]]; auto.
        right. split; auto. exists k, a. split; [now left|auto]. }
  unfold connect, supplies_unicast.
  induction peers as [|[p ad] peers IH]; intros c r c' q H Hin; simpl in H.
  - unfold ret in H. inversion H; subst. auto.
  - unfold bind in H.
    destruct (for_each ad _ c) as [[[]|e|] c1] eqn:E;
      fold (connect_peer p ad c) in E.
    + destruct (IH _ _ _ _ H Hin) as [Hin'|(ad' & k & a & I & I' & K)].
      * destruct (P _ _ _ _ _ _ E Hin') as [?|(-> & k & a & I & K)]; auto.
        right. exists ad, k, a. split; [now left|auto].
      * right. exists ad', k, a. split; [now right|auto].
    + inversion H; subst.
      destruct (P _ _ _ _ _ _ E Hin) as [?|(-> & k & a & I & K)]; auto.
      right. exists ad, k, a. split; [now left|auto].
    + inversion H; subst.
      destruct (P _ _ _ _ _ _ E Hin) as [?|(-> & k & a & I & K)]; auto.
      right. exists ad, k, a. split; [now left|auto].
Qed.

(** X9.  After construction and a call of [connect], whatever that call
    returned or raised, [send] to a name for which the map gave no address
    of the unicast kind returns a DriverSendError for the missing key and
    changes nothing. *)
Theorem send_to_unconnected_peer protocol send_timeout receive_timeout
  c0 c peers r c' m :
  __init__ protocol send_timeout receive_timeout c0 = (Ret tt, c) ->
  connect peers c = (r, c') ->
  ~ supplies_unicast peers (destination m) ->
  send m c' =
  (Ret (Some (DriverSendError (KeyError (destination m)))), c').
Proof.
  intros I H N. destruct c' as [d' w']. apply send_unknown.
  destruct (dict_get (destination m) (_unicast_sender_dict d')) eqn:G; auto.
  exfalso.
  assert (Hin : In (destination m) (dict_keys (table (d', w')))).
  { apply dict_get_keys. unfold table. simpl. congruence. }
  destruct (connect_keys_any _ _ _ _ _ H Hin) as [Hin'|S]; auto.
  destruct (init_inspect _ _ _ _ _ I) as (_ & T & _). rewrite T in Hin'.
  destruct Hin'.
Qed.

Lemma send_to_unconnected_peer_witness :
  send {| source := "learner"; destination := "monitor"; tag := "task";
          payload := "" |}
       (snd (connect two_peers driver0))
  = (Ret (Some (DriverSendError (KeyError "monitor"))),
     snd (connect two_peers driver0)).
Proof.
  apply (send_to_unconnected_peer "tcp" 100 10 (blank, quiet_world) driver0
           two_peers (fst (connect two_peers driver0))
           (snd (connect two_peers driver0))
           {| source := "learner"; destination := "monitor"; tag := "task";
              payload := "" |}).
  - exact driver0_built.
  - now destruct (connect two_peers driver0).
  - intros (ad & k & a & [E|[E|[]]] & Hin & K); inversion E; subst.
    destruct Hin as [E'|[]]. inversion E'; subst. discriminate.
Defined.

(** X10.  [send] touches the destination's socket and nothing else of the
    driver: the names of the table and their order, the other peers'
    sockets and the broadcast sender are as before; [broadcast] leaves the
    whole table as it was.  A call that returns an error leaves the driver
    as it was: the message is on no socket. *)
Theorem send_touches_destination_only m c :
  dict_keys (table (snd (send m c))) = dict_keys (table c)
  /\ (forall q, q <> destination m ->
        dict_get q (table (snd (send m c))) = dict_get q (table c))
  /\ _broadcast_sender (fst (snd (send m c))) = _broadcast_sender (fst c)
  /\ table (snd (broadcast m c)) = table c
  /\ (forall e, fst (send m c) = Ret (Some e) -> fst (snd (send m c)) = fst c)
  /\ (forall e, fst (broadcast m c) = Ret (Some e) ->
                fst (snd (broadcast m c)) = fst c).
Proof.
  destruct c as [d w]. unfold table.
  destruct (send_form m d w)
    as [(E & _)|[(s & text & r & _ & _ & E)|(s & G & _ & E)]];
    destruct (broadcast_form m d w) as [(text' & r' & _ & B)|(_ & B)];
    rewrite E, B; simpl; repeat split; auto; try discriminate;
    try (intros q Hq; now apply dict_get_set_neq);
    try (now apply dict_keys_set_present with s).
Qed.

(** X11.  [connect], then [send]: when [connect] returned, a message for a
    peer of the map that supplied addresses of the unicast kind, whose
    write the transport takes, makes [send] return [None], and afterwards
    that peer's socket, connected to the last of these addresses, holds
    exactly this message. *)
Theorem connect_then_send peers c c1 p ad a m :
  connect peers c = (Ret tt, c1) ->
  NoDup (map fst peers) ->
  In (p, ad) peers ->
  last_unicast ad = Some a ->
  destination m = p ->
  ~ write_fails c1 ->
  exists c2 s,
    send m c1 = (Ret None, c2)
    /\ dict_get p (table c2) = Some s
    /\ connected s = [a] /\ sent s = [m].
Proof.
  intros H N Hin L D W.
  destruct (connect_last_unicast_wins peers c c1 p ad a H N Hin L)
    as (s & G & _ & _ & C & S & _).
  destruct c1 as [d1 w1]. unfold table in *. simpl in *. subst p.
  destruct (write_fails_dec (d1, w1)) as [F|Hw]; [contradiction|].
  simpl in Hw. rewrite (send_write_ok m d1 w1 s G Hw).
  do 2 eexists. split; [reflexivity|]. simpl.
  rewrite dict_get_set_eq. split; [reflexivity|]. simpl.
  rewrite S. auto.
Qed.

Lemma connect_then_send_witness :
  exists c2 s,
    send hello (snd (connect moved_peer driver0)) = (Ret None, c2)
    /\ dict_get "actor" (table c2) = Some s
    /\ connected s = ["tcp://10.0.0.9:5000"] /\ sent s = [hello].
Proof.
  apply (connect_then_send moved_peer driver0
           (snd (connect moved_peer driver0)) "actor"
           [(KInt zmq.PULL, "tcp://10.0.0.2:5000");
            (KInt zmq.SUB, "tcp://10.0.0.2:6000");
            (KStr "7" (Some 7), "tcp://10.0.0.9:5000")]
           "tcp://10.0.0.9:5000" hello).
  - vm_compute. reflexivity.
  - constructor; [intros []|constructor].
  - left. reflexivity.
  - vm_compute. reflexivity.
  - reflexivity.
  - intros (text & r & Hw). vm_compute in Hw. discriminate.
Defined.

(** X12.  A caller that sends a list of messages to one connected peer, one
    [send] each: the peer's socket gets, after what it held, the messages
    whose writes the transport took, in the order of the calls; a message
    whose write failed is on no socket, and the later ones are still sent. *)
Theorem send_all_in_order ms : forall c p s,
  dict_get p (table c) = Some s ->
  (forall m, In m ms -> destination m = p) ->
  dict_get p (table (snd (send_all ms c)))
  = Some (with_sent (sent s ++ accepted ms (write_script (snd c))) s)
  /\ List.length (fst (send_all ms c)) = List.length ms.
Proof.
  induction ms as [|m ms IH]; intros c p s G D; simpl.
  - rewrite app_nil_r. split; [|reflexivity]. rewrite G. now destruct s.
  - assert (Dm : destination m = p) by (apply D; now left).
    assert (D' : forall m', In m' ms -> destination m' = p)
      by (intros m' Hin; apply D; now right).
    destruct c as [d w]. unfold table in G. simpl in G. subst p.
    destruct (send_form m d w)
      as [(E & N)|[(s' & text & r & G' & Hw & E)|(s' & G' & Hw & E)]].
    + congruence.
    + rewrite E. simpl. rewrite Hw. simpl.
      specialize (IH (d, with_write_script r w) (destination m) s G D').
      destruct (send_all ms (d, with_write_script r w)) as [os c2].
      unfold table in *. simpl in *. destruct IH as [IH1 IH2].
      split; [exact IH1|now rewrite IH2].
    + rewrite E. simpl. rewrite G' in G. inversion G; subst s'.
      match goal with
      | |- context [send_all ms ?c1] =>
          specialize (IH c1 (destination m) (with_sent (sent s ++ [m]) s));
          destruct (send_all ms c1) as [os c2]
      end.
      unfold table in *. simpl in *. rewrite dict_get_set_eq in IH.
      destruct (IH eq_refl D') as [IH1 IH2]. split; [|now rewrite IH2].
      rewrite IH1. unfold with_sent. simpl. rewrite <- app_assoc. simpl.
      destruct (write_script w) as [|[text|] sc]; try reflexivity.
      now destruct (Hw text sc).
Qed.

Lemma send_all_in_order_witness :
  option_map sent
    (dict_get "actor"
       (table (snd (send_all [hello; hello; hello]
                      (fst (snd (connect two_peers driver0)),
                       with_write_script [None; Some "Resource temporarily unavailable"]
                         (snd (snd (connect two_peers driver0))))))))
  = Some [hello; hello].
Proof.
  destruct (send_all_in_order [hello; hello; hello]
              (fst (snd (connect two_peers driver0)),
               with_write_script [None; Some "Resource temporarily unavailable"]
                 (snd (snd (connect two_peers driver0))))
              "actor"
              {| sock_id := 3; sock_kind := zmq.PUSH; sndtimeo := 100;
                 subscribed := []; bound := [];
                 connected := ["tcp://10.0.0.2:5000"]; sent := [] |})
    as [H _].
  - vm_compute. reflexivity.
  - intros m [<-|[<-|[<-|[]]]]; reflexivity.
  - rewrite H. vm_compute. reflexivity.
Defined.

(** ** Further properties of [receive] *)

Lemma recv_unicast_never d (wf : wf_driver d) d' w :
  unicast_inbox w = [] ->
  recv_pyobj (_unicast_receiver d) (d', w) = (Hang, (d', w)).
Proof.
  intros H. unfold recv_pyobj. step. now rewrite (wf_inbox_unicast d wf), H.
Qed.

(** A pass takes the first message of one inbox, or none at all. *)
Lemma receive_pass_pops d (wf : wf_driver d) w r c' :
  receive_pass (d, w) = (r, c') ->
  fst c' = d
  /\ match r with
     | Ret m =>
         (exists t, unicast_inbox w = (t, m) :: unicast_inbox (snd c')
                    /\ broadcast_inbox (snd c') = broadcast_inbox w)
         \/ (exists t, broadcast_inbox w = (t, m) :: broadcast_inbox (snd c')
                       /\ unicast_inbox (snd c') = unicast_inbox w)
     | _ => unicast_inbox (snd c') = unicast_inbox w
            /\ broadcast_inbox (snd c') = broadcast_inbox w
     end.
Proof.
  intros H. split; [exact (receive_pass_self _ _ _ H)|].
  rewrite receive_pass_poll in H.
  destruct (poll _ _ (d, w)) as [[sockets|e|] [d1 w1]] eqn:P;
    destruct (poll_inspect _ _ _ _ _ P) as (D & U & B & _);
    simpl in D, U, B; subst d1.
  - destruct (socket_in _ sockets); unfold bind at 1 in H.
    + destruct (unicast_inbox w1) as [|[t m] q] eqn:Q.
      * rewrite (recv_unicast_never d wf d w1 Q) in H.
        inversion H; subst. simpl. split; congruence.
      * rewrite (recv_unicast d wf d w1 t m q Q) in H. revert H. step.
        intros [= <- <-]. simpl. left. exists t. split; congruence.
    + destruct (broadcast_inbox w1) as [|[t m] q] eqn:Q.
      * rewrite (recv_broadcast_never d wf d w1 Q) in H.
        inversion H; subst. simpl. split; congruence.
      * rewrite (recv_broadcast d wf d w1 t m q Q) in H. revert H. step.
        intros [= <- <-]. simpl. right. exists t. split; congruence.
  - inversion H; subst. simpl. auto.
  - inversion H; subst. simpl. auto.
Qed.

(** X14.  Whatever the caller gets from [receive], in either mode and from
    any number of resumptions: the messages yielded are the first messages
    of the unicast inbox and the first messages of the broadcast inbox, each
    in its order of arrival, merged; what was not yielded is still in its
    inbox.  No message is lost, repeated or, within one inbox, yielded out
    of order. *)
Theorem receive_keeps_order d (wf : wf_driver d) n :
  forall is_continuous g w ms r c',
  take n is_continuous g (d, w) = (ms, r, c') ->
  fst c' = d
  /\ exists us bs,
       unicast_inbox w = (us ++ unicast_inbox (snd c'))%list
       /\ broadcast_inbox w = (bs ++ broadcast_inbox (snd c'))%list
       /\ Interleave (map snd us) (map snd bs) ms.
Proof.
  induction n as [|n IH]; intros ic g w ms r c' H.
  - simpl in H. inversion H; subst. split; auto.
    exists [], []. repeat split; auto. constructor.
  - assert (Stop : forall x : Resumed,
      (@nil Message, Some x, (d, w)) = (ms, r, c') ->
      fst c' = d
      /\ exists us bs,
           unicast_inbox w = (us ++ unicast_inbox (snd c'))%list
           /\ broadcast_inbox w = (bs ++ broadcast_inbox (snd c'))%list
           /\ Interleave (map snd us) (map snd bs) ms).
    { intros x E. inversion E; subst. split; auto.
      exists [], []. repeat split; auto. constructor. }
    assert (Pass :
      match resume_pass (d, w) with
      | (Yield m, g', c1) =>
          let '(ms1, r1, c2) := take n ic g' c1 in (m :: ms1, r1, c2)
      | (x, _, c1) => ([], Some x, c1)
      end = (ms, r, c') ->
      fst c' = d
      /\ exists us bs,
           unicast_inbox w = (us ++ unicast_inbox (snd c'))%list
           /\ broadcast_inbox w = (bs ++ broadcast_inbox (snd c'))%list
           /\ Interleave (map snd us) (map snd bs) ms).
    { unfold resume_pass.
      destruct (receive_pass (d, w)) as [[m|e|] [d1 w1]] eqn:E;
        destruct (receive_pass_pops d wf w _ _ E) as (D & Q);
        simpl in D; subst d1; simpl in Q.
      - destruct (take n ic Suspended (d, w1)) as [[ms1 r1] c2] eqn:T.
        intros X. inversion X; subst.
        destruct (IH _ _ _ _ _ _ T) as (F & us & bs & U & B & I).
        split; auto.
        destruct Q as [(t & Qu & Qb)|(t & Qb & Qu)].
        + exists ((t, m) :: us), bs. rewrite Qu, U, <- Qb, B.
          repeat split; auto. simpl. now constructor.
        + exists us, ((t, m) :: bs). rewrite Qb, B, <- Qu, U.
          repeat split; auto. simpl. now constructor.
      - intros X. inversion X; subst. destruct Q as [Qu Qb]. split; auto.
        exists [], []. simpl. repeat split; auto. constructor.
      - intros X. inversion X; subst. destruct Q as [Qu Qb]. split; auto.
        exists [], []. simpl. repeat split; auto. constructor. }
    simpl in H. destruct g.
    + exact (Pass H).
    + destruct ic; simpl in H; [exact (Pass H)|exact (Stop _ H)].
    + exact (Stop _ H).
Qed.

Lemma receive_keeps_order_witness :
  fst (fst (take 2 true Created (fst driver0, mixed_traffic)))
  = [news; hello]
  /\ exists us bs : list (Z * Message),
       unicast_inbox mixed_traffic
       = (us ++ unicast_inbox
                  (snd (snd (take 2 true Created
                               (fst driver0, mixed_traffic)))))%list
       /\ Interleave (map snd us) (map snd bs)
            (fst (fst (take 2 true Created (fst driver0, mixed_traffic)))).
Proof.
  assert (wf : wf_driver (fst driver0)).
  { apply reachable_wf. exact (reach_init _ _ _ _ _ driver0_built). }
  split; [vm_compute; reflexivity|].
  destruct (take 2 true Created (fst driver0, mixed_traffic))
    as [[ms r] c'] eqn:T.
  destruct (receive_keeps_order (fst driver0) wf 2 true Created
              mixed_traffic ms r c' T) as (_ & us & bs & U & B & I).
  exists us, bs. simpl. auto.
Defined.

(** X13.  When the poll fails, a resumption of [receive] raises a
    DriverReceiveError that wraps the transport's error, the generator is
    finished, and no message was taken: both inboxes are as before. *)
Theorem receive_poll_failure d w text rest is_continuous g :
  poll_script w = Some text :: rest ->
  g = Created \/ (g = Suspended /\ is_continuous = true) ->
  next is_continuous g (d, w)
  = (Raised (DriverReceiveError (ZMQError text)), Finished,
     (d, with_poll_script rest w))
  /\ next is_continuous Finished (d, with_poll_script rest w)
     = (StopIteration, Finished, (d, with_poll_script rest w))
  /\ unicast_inbox (with_poll_script rest w) = unicast_inbox w
  /\ broadcast_inbox (with_poll_script rest w) = broadcast_inbox w.
Proof.
  intros S G.
  assert (P : receive_pass (d, w)
              = (Exc (DriverReceiveError (ZMQError text)),
                 (d, with_poll_script rest w))).
  { rewrite receive_pass_poll. unfold poll. step. now rewrite S. }
  repeat split.
  destruct G as [->|[-> ->]]; simpl; unfold resume_pass; now rewrite P.
Qed.

Lemma receive_poll_failure_witness :
  fst (take 3 true Created
         (fst driver0,
          with_poll_script [Some "Context was terminated"] mixed_traffic))
  = ([], Some (Raised (DriverReceiveError
                         (ZMQError "Context was terminated")))).
Proof.
  destruct (receive_poll_failure (fst driver0)
              (with_poll_script [Some "Context was terminated"] mixed_traffic)
              "Context was terminated" [] true Created eq_refl
              (or_introl eq_refl)) as (N & _).
  change (take 3 true Created
            (fst driver0,
             with_poll_script [Some "Context was terminated"] mixed_traffic))
    with (match next true Created
                  (fst driver0,
                   with_poll_script [Some "Context was terminated"]
                     mixed_traffic) with
          | (Yield m, g', c') =>
              let '(ms, r, c'') := take 2 true g' c' in (m :: ms, r, c'')
          | (r, _, c') => ([], Some r, c')
          end).
  rewrite N. reflexivity.
Defined.

(** The poll, when the script lets it through. *)
Lemma poll_unfaulted timeout reg d w :
  (forall text r, poll_script w <> Some text :: r) ->
  poll timeout reg (d, w) =
  let w' := with_poll_script (tl (poll_script w)) w in
  match ready_at (now w) reg w with
  | (_ :: _) as ready => (Ret ready, (d, w'))
  | [] =>
      match next_arrival reg w with
      | Some t =>
          if (timeout <? 0) || (t <=? now w + timeout)
          then (Ret (ready_at t reg w), (d, with_now t w'))
          else (Ret [], (d, with_now (now w + timeout) w'))
      | None =>
          if timeout <? 0 then (Hang, (d, w'))
          else (Ret [], (d, with_now (now w + timeout) w'))
      end
  end.
Proof.
  intros Hs. unfold poll. step.
  destruct (poll_script w) as [|[text|] r] eqn:E;
    try (now destruct (Hs text r));
    (destruct (ready_at (now w) reg w); [|reflexivity];
     destruct (next_arrival reg w) as [t|];
     [destruct ((timeout <? 0) || (t <=? now w + timeout))
     |destruct (timeout <? 0)]; reflexivity).
Qed.

Lemma wf_next_arrival d (wf : wf_driver d) w :
  next_arrival (_poller d) w =
  earliest (match unicast_inbox w with [] => None | (a, _) :: _ => Some a end)
    (earliest
       (match broadcast_inbox w with [] => None | (a, _) :: _ => Some a end)
       None).
Proof.
  unfold next_arrival. rewrite (wf_poller d wf). simpl.
  now rewrite (wf_inbox_unicast d wf), (wf_inbox_broadcast d wf).
Qed.

(** A pass whose poll reports no data reads the broadcast receiver. *)
Lemma receive_pass_idle d (wf : wf_driver d) w c1 :
  poll (_receive_timeout d) (_poller d) (d, w) = (Ret [], c1) ->
  (broadcast_inbox w = [] -> receive_pass (d, w) = (Hang, c1))
  /\ (forall t m q, broadcast_inbox w = (t, m) :: q ->
        exists c2, receive_pass (d, w) = (Ret m, c2)).
Proof.
  intros P. rewrite receive_pass_poll, P.
  destruct (poll_inspect _ _ _ _ _ P) as (D & U & B & _).
  destruct c1 as [d1 w1]. simpl in D, U, B. subst d1.
  change (socket_in (_unicast_receiver d) []) with false. cbv iota. split.
  - intros E. rewrite E in B. unfold bind at 1.
    now rewrite (recv_broadcast_never d wf d w1 B).
  - intros t m q E. rewrite E in B. unfold bind at 1.
    rewrite (recv_broadcast d wf d w1 t m q B). step. eauto.
Qed.

Lemma receive_pass_ready_yields d (wf : wf_driver d) w ready c1 :
  poll (_receive_timeout d) (_poller d) (d, w) = (Ret ready, c1) ->
  ready <> [] ->
  exists m c2, receive_pass (d, w) = (Ret m, c2).
Proof.
  intros P N. pose proof (receive_pass_ready d w ready c1 wf P N) as H.
  destruct (socket_in (_unicast_receiver d) ready);
    destruct H as (t & m & q & _ & H); eauto.
Qed.

Lemma poll_outcome timeout reg d w :
  (forall text r, poll_script w <> Some text :: r) ->
  (exists ready c1, poll timeout reg (d, w) = (Ret ready, c1))
  \/ (exists c1, poll timeout reg (d, w) = (Hang, c1)
                 /\ next_arrival reg w = None).
Proof.
  intros Hs. rewrite (poll_unfaulted timeout reg d w Hs). cbv zeta.
  destruct (ready_at (now w) reg w); [|eauto].
  destruct (next_arrival reg w) as [t|].
  - destruct ((timeout <? 0) || (t <=? now w + timeout)); eauto.
  - destruct (timeout <? 0); eauto.
Qed.

(** With a broadcast message to come, a pass yields. *)
Lemma receive_pass_broadcast_pending d (wf : wf_driver d) w :
  (forall text r, poll_script w <> Some text :: r) ->
  broadcast_inbox w <> [] ->
  exists m c', receive_pass (d, w) = (Ret m, c').
Proof.
  intros Hs Bne.
  destruct (broadcast_inbox w) as [|[tb mb] qb] eqn:B; [congruence|].
  destruct (poll_outcome (_receive_timeout d) (_poller d) d w Hs)
    as [(ready & c1 & P)|(c1 & _ & N)].
  - destruct ready as [|x l].
    + destruct (proj2 (receive_pass_idle d wf w c1 P) tb mb qb B) as (c2 & E).
      eauto.
    + apply (receive_pass_ready_yields d wf w (x :: l) c1 P). discriminate.
  - rewrite (wf_next_arrival d wf), B in N.
    destruct (unicast_inbox w) as [|[tu mu] qu]; discriminate.
Qed.

(** With a unicast message that arrives before the timeout, a pass
    yields. *)
Lemma receive_pass_unicast_in_time d (wf : wf_driver d) w t m q :
  (forall text r, poll_script w <> Some text :: r) ->
  unicast_inbox w = (t, m) :: q ->
  _receive_timeout d < 0 \/ t <= now w + _receive_timeout d ->
  exists m' c', receive_pass (d, w) = (Ret m', c').
Proof.
  intros Hs U C.
  destruct (broadcast_inbox w) as [|[tb mb] qb] eqn:B.
  - pose proof (poll_unfaulted (_receive_timeout d) (_poller d) d w Hs) as P.
    cbv zeta in P.
    rewrite !(wf_ready_at d wf), (wf_next_arrival d wf), U, B in P.
    simpl in P.
    assert (C' : (_receive_timeout d <? 0)
                 || (t <=? now w + _receive_timeout d) = true).
    { apply orb_true_iff. destruct C; [left; now apply Z.ltb_lt
                                      |right; now apply Z.leb_le]. }
    destruct (t <=? now w) eqn:A; simpl in P.
    + apply (receive_pass_ready_yields d wf w _ _ P). discriminate.
    + rewrite C', (wf_ready_at d wf), U, B in P. simpl in P.
      rewrite Z.leb_refl in P. simpl in P.
      apply (receive_pass_ready_yields d wf w _ _ P). discriminate.
  - apply (receive_pass_broadcast_pending d wf w Hs). rewrite B. discriminate.
Qed.

(** X15.  When the poll does not fail, a pass of [receive] yields a message
    exactly in these cases: a broadcast message is still to come, or the
    first unicast message arrives before the receive timeout runs out (or
    there is no timeout).  With no broadcast message to come, and no unicast
    message or one that arrives after the timeout, the pass never returns. *)
Theorem receive_pass_yields_iff d (wf : wf_driver d) w :
  (forall text r, poll_script w <> Some text :: r) ->
  (broadcast_inbox w <> []
   \/ (exists t m q, unicast_inbox w = (t, m) :: q
                     /\ (_receive_timeout d < 0
                         \/ t <= now w + _receive_timeout d)) ->
   exists m c', receive_pass (d, w) = (Ret m, c'))
  /\ (broadcast_inbox w = [] ->
      unicast_inbox w = []
      \/ (exists t m q, unicast_inbox w = (t, m) :: q
                        /\ 0 <= _receive_timeout d
                        /\ now w + _receive_timeout d < t) ->
      exists c', receive_pass (d, w) = (Hang, c')).
Proof.
  intros Hs. split.
  - intros [Bne|(t & m & q & U & C)].
    + now apply receive_pass_broadcast_pending.
    + now apply (receive_pass_unicast_in_time d wf w t m q).
  - intros B Dead.
    pose proof (poll_unfaulted (_receive_timeout d) (_poller d) d w Hs) as P.
    cbv zeta in P.
    rewrite !(wf_ready_at d wf), (wf_next_arrival d wf), B in P.
    destruct Dead as [U|(t & m & q & U & T0 & Late)]; rewrite U in P;
      simpl in P.
    + destruct (_receive_timeout d <? 0) eqn:Neg.
      * rewrite receive_pass_poll, P. eauto.
      * rewrite (proj1 (receive_pass_idle d wf w _ P) B). eauto.
    + assert (A : (t <=? now w) = false) by (apply Z.leb_gt; lia).
      assert (C : (_receive_timeout d <? 0)
                  || (t <=? now w + _receive_timeout d) = false).
      { apply orb_false_iff. split; [apply Z.ltb_ge|apply Z.leb_gt]; lia. }
      rewrite A in P. simpl in P. rewrite C in P.
      rewrite (proj1 (receive_pass_idle d wf w _ P) B). eauto.
Qed.

Lemma receive_pass_yields_iff_witness :
  (exists m c', receive_pass (fst driver0, mixed_traffic) = (Ret m, c'))
  /\ (exists c', receive_pass (fst driver0, late_unicast) = (Hang, c')).
Proof.
  assert (wf : wf_driver (fst driver0)).
  { apply reachable_wf. exact (reach_init _ _ _ _ _ driver0_built). }
  split.
  - apply (proj1 (receive_pass_yields_iff (fst driver0) wf mixed_traffic
                    ltac:(vm_compute; discriminate))).
    left. vm_compute. discriminate.
  - apply (proj2 (receive_pass_yields_iff (fst driver0) wf late_unicast
                    ltac:(vm_compute; discriminate))).
    + vm_compute. reflexivity.
    + right. exists 50, hello, []. split; [vm_compute; reflexivity|].
      split; vm_compute; [discriminate|reflexivity].
Defined.

(** X16.  With [is_continuous] false and a message the pass can yield (as
    in X15), the caller gets exactly one message and then the end of the
    iteration, however many messages are queued. *)
Theorem receive_once_yields_one d (wf : wf_driver d) w n :
  (forall text r, poll_script w <> Some text :: r) ->
  broadcast_inbox w <> []
  \/ (exists t m q, unicast_inbox w = (t, m) :: q
                    /\ (_receive_timeout d < 0
                        \/ t <= now w + _receive_timeout d)) ->
  exists m c',
    take (S (S n)) false Created (d, w) = ([m], Some StopIteration, c').
Proof.
  intros Hs Live.
  assert (Y : exists m c', receive_pass (d, w) = (Ret m, c')).
  { destruct Live as [Bne|(t & m & q & U & C)].
    - now apply receive_pass_broadcast_pending.
    - now apply (receive_pass_unicast_in_time d wf w t m q). }
  destruct Y as (m & c' & E). exists m, c'.
  simpl. unfold resume_pass. rewrite E. reflexivity.
Qed.

Lemma receive_once_yields_one_witness :
  exists m c',
    take 5 false Created (fst driver0, mixed_traffic)
    = ([m], Some StopIteration, c').
Proof.
  assert (wf : wf_driver (fst driver0)).
  { apply reachable_wf. exact (reach_init _ _ _ _ _ driver0_built). }
  apply (receive_once_yields_one (fst driver0) wf mixed_traffic 3).
  - vm_compute. discriminate.
  - left. vm_compute. discriminate.
Defined.

(** ** The adjacency loader *)

Section LoaderProperties.
Variable F : Type.
Variable py_float : string -> option F.
Variable expanduser : string -> string.
Variable open_csv : string -> option (list (list string)).

Local Notation "'floats'" := (adj_loader.floats F py_float).
Local Notation "'rows_loop'" := (adj_loader.rows_loop F py_float).
Local Notation "'all_floats'" := (adj_loader.all_floats F py_float).
Local Notation "'load_adj_from_csv'" :=
  (adj_loader.load_adj_from_csv F py_float expanduser open_csv).

(** The loop, with what it has already appended. *)
Lemma rows_loop_acc reader : forall skiprows adj,
  rows_loop reader skiprows adj =
  match all_floats (skipn (Z.to_nat skiprows) reader) with
  | inl xss => adj_loader.Returns F (adj ++ xss)
  | inr col => adj_loader.RaisesValueError F col
  end.
Proof.
  induction reader as [|row rest IH]; intros k adj; simpl.
  - destruct (Z.to_nat k); simpl; now rewrite app_nil_r.
  - destruct (0 <? k) eqn:K.
    + apply Z.ltb_lt in K. rewrite IH.
      replace (Z.to_nat k) with (S (Z.to_nat (k - 1))) by lia. reflexivity.
    + apply Z.ltb_ge in K. replace (Z.to_nat k) with O by lia. simpl.
      destruct (floats row) as [xs|col]; [|reflexivity].
      rewrite IH. replace (Z.to_nat k) with O by lia. simpl.
      destruct (all_floats rest) as [xss|col]; [|reflexivity].
      now rewrite <- app_assoc.
Qed.

(** X17.  [load_adj_from_csv] opens the file (after [expanduser], when the
    name starts with a tilde) and returns the values of the rows after the
    first [skiprows] rows, all rows when [skiprows] is zero or negative.
    The skipped rows are not converted: whatever they hold raises nothing.
    When the file cannot be opened the error of [open] is raised. *)
Theorem load_adj_skips_rows file skiprows :
  let path := if String.prefix "~" file then expanduser file else file in
  (forall reader, open_csv path = Some reader ->
     load_adj_from_csv file skiprows =
     match all_floats (skipn (Z.to_nat skiprows) reader) with
     | inl xss => adj_loader.Returns F xss
     | inr col => adj_loader.RaisesValueError F col
     end)
  /\ (open_csv path = None ->
      load_adj_from_csv file skiprows = adj_loader.RaisesOSError F path).
Proof.
  cbv zeta. unfold adj_loader.load_adj_from_csv. split.
  - intros reader O. rewrite O. now rewrite rows_loop_acc.
  - intros O. now rewrite O.
Qed.

Lemma all_floats_length rows : forall xss,
  all_floats rows = inl xss ->
  map (@List.length F) xss = map (@List.length string) rows.
Proof.
  assert (R : forall row xs, floats row = inl xs ->
                             List.length xs = List.length row).
  { induction row as [|col r IH]; intros xs H; simpl in H.
    - now inversion H.
    - destruct (py_float col); [|discriminate].
      destruct (floats r) as [ys|]; [|discriminate].
      inversion H; subst. simpl. f_equal. now apply IH. }
  induction rows as [|row rest IH]; intros xss H; simpl in H.
  - now inversion H.
  - destruct (floats row) as [xs|] eqn:E; [|discriminate].
    destruct (all_floats rest) as [yss|]; [|discriminate].
    inversion H; subst. simpl. f_equal; [now apply R|now apply IH].
Qed.

(** X18.  When [load_adj_from_csv] returns, the result has one row for each
    row of the file after the skipped ones, each with as many values as the
    row has cells: rows of different lengths and empty rows are kept as
    they are, and [skiprows] beyond the end of the file gives the empty
    list. *)
Theorem load_adj_shape file skiprows reader adj :
  open_csv (if String.prefix "~" file then expanduser file else file)
  = Some reader ->
  load_adj_from_csv file skiprows = adj_loader.Returns F adj ->
  map (@List.length F) adj
  = map (@List.length string) (skipn (Z.to_nat skiprows) reader)
  /\ List.length adj = (List.length reader - Z.to_nat skiprows)%nat.
Proof.
  intros O H. unfold adj_loader.load_adj_from_csv in H. rewrite O in H.
  rewrite rows_loop_acc in H.
  destruct (all_floats (skipn (Z.to_nat skiprows) reader)) as [xss|] eqn:A;
    [|discriminate].
  inversion H; subst. simpl. apply all_floats_length in A. split; auto.
  rewrite <- (length_map (@List.length F)), A, length_map.
  apply length_skipn.
Qed.

Lemma floats_app_bad pre col post :
  (forall c, In c pre -> py_float c <> None) ->
  py_float col = None ->
  floats (pre ++ col :: post) = inr col.
Proof.
  intros Good Bad. induction pre as [|c pre IH]; simpl.
  - now rewrite Bad.
  - destruct (py_float c) eqn:E; [|now destruct (Good c (or_introl eq_refl))].
    rewrite IH; auto. intros c' Hin. apply Good. now right.
Qed.

Lemma floats_good row :
  (forall c, In c row -> py_float c <> None) ->
  exists xs, floats row = inl xs.
Proof.
  induction row as [|c row IH]; intros Good; simpl; [eauto|].
  destruct (py_float c) eqn:E; [|now destruct (Good c (or_introl eq_refl))].
  destruct IH as (xs & ->); eauto. intros c' Hin. apply Good. now right.
Qed.

(** X19.  The first cell that is no number, in the rows after the skipped
    ones, row by row and left to right, makes [load_adj_from_csv] raise the
    ValueError of that cell: nothing is returned, whatever the later rows
    hold. *)
Theorem load_adj_first_bad_cell file skiprows reader good pre col post rest :
  open_csv (if String.prefix "~" file then expanduser file else file)
  = Some reader ->
  skipn (Z.to_nat skiprows) reader
  = (good ++ (pre ++ col :: post) :: rest)%list ->
  (forall row c, In row good -> In c row -> py_float c <> None) ->
  (forall c, In c pre -> py_float c <> None) ->
  py_float col = None ->
  load_adj_from_csv file skiprows = adj_loader.RaisesValueError F col.
Proof.
  intros O S Good Pre Bad. unfold adj_loader.load_adj_from_csv.
  rewrite O, rows_loop_acc, S. clear O S.
  induction good as [|row good IH]; simpl.
  - now rewrite (floats_app_bad pre col post Pre Bad).
  - destruct (floats_good row) as (xs & ->).
    { intros c Hin. apply (Good row); auto. now left. }
    assert (G' : forall r c, In r good -> In c r -> py_float c <> None)
      by (intros r c Hr Hc; apply (Good r); auto; now right).
    specialize (IH G').
    destruct (all_floats (good ++ (pre ++ col :: post)%list :: rest))
      as [xss|c]; [discriminate IH|exact IH].
Qed.
End LoaderProperties.

Lemma load_adj_skips_rows_witness :
  adj_loader.load_adj_from_csv Z int_of_str home_expanduser one_file
    "~/adj.csv" 1
  = adj_loader.Returns Z [[0; 3]; [3; 0; 7]]
  /\ adj_loader.load_adj_from_csv Z int_of_str home_expanduser one_file
       "adj.csv" 1
     = adj_loader.RaisesOSError Z "adj.csv".
Proof.
  destruct (load_adj_skips_rows Z int_of_str home_expanduser one_file
              "~/adj.csv" 1) as [Ok _].
  destruct (load_adj_skips_rows Z int_of_str home_expanduser one_file
              "adj.csv" 1) as [_ Ko].
  split.
  - rewrite (Ok _ ltac:(vm_compute; reflexivity)). vm_compute. reflexivity.
  - apply Ko. vm_compute. reflexivity.
Defined.

Lemma load_adj_shape_witness :
  map (@List.length Z) [[0; 3]; [3; 0; 7]] = [2; 3]%nat
  /\ List.length [[0; 3]; [3; 0; 7]] = 2%nat.
Proof.
  destruct (load_adj_shape Z int_of_str home_expanduser one_file
              "~/adj.csv" 1
              [["station"; "s1"; "s2"]; ["0"; "3"]; ["3"; "0"; "7"]]
              [[0; 3]; [3; 0; 7]]) as [H1 H2].
  - vm_compute. reflexivity.
  - vm_compute. reflexivity.
  - split; [exact H1|exact H2].
Defined.

Lemma load_adj_first_bad_cell_witness :
  adj_loader.load_adj_from_csv Z int_of_str home_expanduser one_file
    "~/adj.csv" 0
  = adj_loader.RaisesValueError Z "station".
Proof.
  apply (load_adj_first_bad_cell Z int_of_str home_expanduser one_file
           "~/adj.csv" 0
           [["station"; "s1"; "s2"]; ["0"; "3"]; ["3"; "0"; "7"]]
           [] [] "station" ["s1"; "s2"] [["0"; "3"]; ["3"; "0"; "7"]]).
  - vm_compute. reflexivity.
  - reflexivity.
  - intros row c [].
  - intros c [].
  - vm_compute. reflexivity.
Defined.

Lemma send_touches_destination_only_witness :
  dict_get "actor" (table (snd (send news (snd (connect two_peers driver0)))))
  = dict_get "actor" (table (snd (connect two_peers driver0)))
  /\ fst (snd (send hello congested)) = fst congested.
Proof.
  destruct (send_touches_destination_only news
              (snd (connect two_peers driver0))) as (_ & O & _).
  destruct (send_touches_destination_only hello congested)
    as (_ & _ & _ & _ & E & _).
  split.
  - apply O. discriminate.
  - apply (E (DriverSendError (ZMQError "Resource temporarily unavailable"))).
    vm_compute. reflexivity.
Defined.
